(** * MIPS Studio: the assembler and interpreter of [src/App.jsx]

    A shallow embedding of the simulator core ([useMipsSimulator]): the
    sparse byte memory, the line-oriented assembler and the one-instruction
    [step] function, followed by the properties established about them.

    JavaScript values are modelled as far as the code produces them:
    - numbers are the integer-valued doubles, the two infinities and NaN
      (the code never produces a fraction; [-0] behaves as [0] everywhere it
      is used);
    - [undefined] is kept apart from NaN where the code can tell them apart
      ([===] in [beq]/[bne], destructuring in [lw]/[sw]/[lb]/[sb]);
    - plain objects used as maps ([memory], [labelMap]) are finite maps over
      their own properties, and the members [REG_MAP] inherits from
      [Object.prototype] are listed explicitly;
    - source text and operand tokens are strings of 8-bit characters. *)

From Stdlib Require Import ZArith Ascii String List Lia DecimalString.
From stdpp Require Import base numbers list strings vector finite gmap fin_maps.

Open Scope Z_scope.

(* ===================================================================== *)
(** ** JavaScript numbers *)
(* ===================================================================== *)

Inductive num := NaN | Inf (negative : bool) | Fin (z : Z).

#[global] Instance num_eq_dec : EqDecision num.
Proof. solve_decision. Defined.

#[global] Instance num_countable : Countable num.
Proof.
  refine (inj_countable'
    (λ n, match n with
          | NaN => inl () | Inf b => inr (inl b) | Fin z => inr (inr z) end)
    (λ x, match x with
          | inl _ => NaN | inr (inl b) => Inf b | inr (inr z) => Fin z end) _).
  by intros [].
Defined.

(** The value of a JavaScript expression that is a number or [undefined]. *)
Inductive jsval := Undefined | Num (n : num).

Definition ToNumber (v : jsval) : num :=
  match v with Undefined => NaN | Num n => n end.

(** Rounding of a mathematical integer to the nearest double (ties to even,
    overflow to an infinity).  Integers up to 2^53 in magnitude are exact. *)
Definition to_double (z : Z) : num :=
  let a := Z.abs z in
  if a <=? 2 ^ 53 then Fin z
  else
    let e := Z.log2 a - 52 in
    let q := Z.shiftr a e in
    let r := Z.land a (Z.ones e) in
    let half := Z.shiftl 1 (e - 1) in
    let q' := if (half <? r) || ((r =? half) && Z.odd q) then q + 1 else q in
    let m := Z.shiftl q' e in
    if 2 ^ 1024 <=? m then Inf (z <? 0) else Fin (Z.sgn z * m).

(** [a + b] and [a - b] on numbers. *)
Definition js_add (a b : num) : num :=
  match a, b with
  | NaN, _ | _, NaN => NaN
  | Inf s, Inf t => if Bool.eqb s t then Inf s else NaN
  | Inf s, Fin _ | Fin _, Inf s => Inf s
  | Fin x, Fin y => to_double (x + y)
  end.

Definition js_neg (a : num) : num :=
  match a with NaN => NaN | Inf s => Inf (negb s) | Fin x => Fin (- x) end.

Definition js_sub (a b : num) : num := js_add a (js_neg b).

(** [a < b]: false as soon as one side is NaN. *)
Definition js_lt (a b : num) : bool :=
  match a, b with
  | NaN, _ | _, NaN => false
  | Inf s, Inf t => s && negb t
  | Inf s, Fin _ => s
  | Fin _, Inf t => negb t
  | Fin x, Fin y => x <? y
  end.

(** [a === b] on numbers: NaN is not equal to itself. *)
Definition num_strict_eq (a b : num) : bool :=
  match a, b with
  | NaN, _ | _, NaN => false
  | Inf s, Inf t => Bool.eqb s t
  | Fin x, Fin y => x =? y
  | _, _ => false
  end.

(** [a === b] on values: [undefined === undefined] holds. *)
Definition strict_eq (a b : jsval) : bool :=
  match a, b with
  | Undefined, Undefined => true
  | Num x, Num y => num_strict_eq x y
  | _, _ => false
  end.

(** Two's-complement wrap of an integer into the signed 32-bit range. *)
Definition wrap32 (z : Z) : Z := (z + 2 ^ 31) mod 2 ^ 32 - 2 ^ 31.

Definition ToInt32 (n : num) : Z :=
  match n with Fin z => wrap32 z | _ => 0 end.

Definition ToUint32 (n : num) : Z :=
  match n with Fin z => z mod 2 ^ 32 | _ => 0 end.

Definition ToUint16 (n : num) : Z :=
  match n with Fin z => z mod 2 ^ 16 | _ => 0 end.

(** Every integer literal of the source is a number. *)
Coercion Fin : Z >-> num.

(** The 32-bit operators: operands go through [ToInt32] (or [ToUint32]),
    shift counts are taken modulo 32, results are 32-bit integers. *)
Definition js_shl (a b : num) : num :=
  Fin (wrap32 (Z.shiftl (ToInt32 a) (ToUint32 b mod 32))).

Definition js_sar (a b : num) : num :=
  Fin (Z.shiftr (ToInt32 a) (ToUint32 b mod 32)).

Definition js_shr (a b : num) : num :=
  Fin (Z.shiftr (ToUint32 a) (ToUint32 b mod 32)).

Definition js_and (a b : num) : num := Fin (Z.land (ToInt32 a) (ToInt32 b)).
Definition js_or (a b : num) : num := Fin (Z.lor (ToInt32 a) (ToInt32 b)).
Definition js_xor (a b : num) : num := Fin (Z.lxor (ToInt32 a) (ToInt32 b)).

(** [Math.imul]. *)
Definition js_imul (a b : num) : num := Fin (wrap32 (ToInt32 a * ToInt32 b)).

(** Truthiness of a number: [0] and NaN are falsy. *)
Definition truthy (a : num) : bool :=
  match a with NaN => false | Inf _ => true | Fin z => negb (z =? 0) end.

(* ===================================================================== *)
(** ** JavaScript strings *)
(* ===================================================================== *)

Open Scope string_scope.
Open Scope list_scope.
Open Scope Z_scope.

(** [charCodeAt] of one character. *)
Definition code (c : ascii) : Z := Z.of_N (N_of_ascii c).

(** White space and line terminators (what [trim], [\s] and [parseInt]
    skip), among the 8-bit characters. *)
Definition is_ws (c : ascii) : bool :=
  let n := code c in
  ((9 <=? n) && (n <=? 13)) || (n =? 32) || (n =? 160).

Fixpoint drop_ws (s : string) : string :=
  match s with
  | String c s' => if is_ws c then drop_ws s' else s
  | EmptyString => EmptyString
  end.

(** [s.trim()]. *)
Definition trim (s : string) : string :=
  String.rev (drop_ws (String.rev (drop_ws s))).

Definition strlen (s : string) : Z := Z.of_nat (String.length s).

(** [s.indexOf(c)] for a one-character needle: [-1] when absent. *)
Fixpoint indexOf (c : ascii) (s : string) : Z :=
  match s with
  | EmptyString => -1
  | String d s' =>
      if Ascii.eqb c d then 0
      else let i := indexOf c s' in if i <? 0 then -1 else i + 1
  end.

(** [s.lastIndexOf(c)]. *)
Fixpoint lastIndexOf (c : ascii) (s : string) : Z :=
  match s with
  | EmptyString => -1
  | String d s' =>
      let i := lastIndexOf c s' in
      if 0 <=? i then i + 1 else if Ascii.eqb c d then 0 else -1
  end.

(** [s.includes(c)]. *)
Definition includes (c : ascii) (s : string) : bool := 0 <=? indexOf c s.

(** [s.substring(a, b)]: both ends are clamped to [0 .. length] and swapped
    when [a > b]. *)
Definition js_substring (a b : Z) (s : string) : string :=
  let clamp i := Z.max 0 (Z.min i (strlen s)) in
  let from := Z.min (clamp a) (clamp b) in
  let to := Z.max (clamp a) (clamp b) in
  String.substring (Z.to_nat from) (Z.to_nat (to - from)) s.

(** [s.split(c)] for a one-character separator. *)
Fixpoint split (c : ascii) (s : string) : list string :=
  match s with
  | EmptyString => [EmptyString]
  | String d s' =>
      if Ascii.eqb c d then EmptyString :: split c s'
      else match split c s' with
           | w :: ws => String d w :: ws
           | [] => [String d EmptyString]
           end
  end.

(** [parts.join(c)]. *)
Fixpoint join (c : string) (parts : list string) : string :=
  match parts with
  | [] => EmptyString
  | [w] => w
  | w :: ws => w +:+ c +:+ join c ws
  end.

(** [s.match(/\S+/g)]: the maximal runs of non-blank characters ([nil]
    stands for the [null] of no match). *)
Fixpoint words_acc (cur : string) (s : string) : list string :=
  let flush := if String.eqb cur "" then [] else [String.rev cur] in
  match s with
  | EmptyString => flush
  | String c s' =>
      if is_ws c then flush ++ words_acc "" s'
      else words_acc (String c cur) s'
  end.

Definition match_words (s : string) : list string := words_acc "" s.

(** [s.replace(/c/g, d)] for single characters. *)
Fixpoint replace_char (c d : ascii) (s : string) : string :=
  match s with
  | EmptyString => EmptyString
  | String x s' => String (if Ascii.eqb x c then d else x) (replace_char c d s')
  end.

(** [s.replace(/\\c/g, d)]: every backslash followed by [c] becomes [d]. *)
Fixpoint replace_escape (c d : ascii) (s : string) : string :=
  match s with
  | String "\" (String x s' as rest) =>
      if Ascii.eqb x c then String d (replace_escape c d s')
      else String "\" (replace_escape c d rest)
  | String x s' => String x (replace_escape c d s')
  | EmptyString => EmptyString
  end.

(** [parseInt(s)] with no radix argument: leading blanks, an optional sign,
    an optional [0x]/[0X] prefix selecting radix 16, then the longest run of
    digits; NaN when there is none.  The value is rounded to a double. *)
Definition digit_val (radix : Z) (c : ascii) : option Z :=
  let n := code c in
  let d := if (48 <=? n) && (n <=? 57) then n - 48
           else if (97 <=? n) && (n <=? 122) then n - 87
           else if (65 <=? n) && (n <=? 90) then n - 55
           else radix in
  if d <? radix then Some d else None.

Fixpoint digits (radix : Z) (s : string) (acc : option Z) : option Z :=
  match s with
  | EmptyString => acc
  | String c s' =>
      match digit_val radix c with
      | Some d => digits radix s' (Some (default 0 acc * radix + d))
      | None => acc
      end
  end.

Definition parseInt (s : string) : num :=
  let s := drop_ws s in
  let '(negative, s) :=
    match s with
    | String "-" s' => (true, s')
    | String "+" s' => (false, s')
    | _ => (false, s)
    end in
  let '(radix, s) :=
    match s with
    | String "0" (String "x" s') | String "0" (String "X" s') => (16, s')
    | _ => (10, s)
    end in
  match digits radix s None with
  | None => NaN
  | Some m => to_double (if negative then - m else m)
  end.

(** [String(v)] for an operand that may be missing: [args[k]] is [undefined]
    past the end of the operand list. *)
Definition ToString (o : option string) : string := default "undefined" o.

(** [n.toString()] of an integer, as UTF-16 code units. *)
Definition codes (s : string) : list Z := map code (list_ascii_of_string s).

Definition decimal (z : Z) : list Z :=
  codes (NilZero.string_of_int (Z.to_int z)).

(* ===================================================================== *)
(** ** Architecture constants and the register map *)
(* ===================================================================== *)

Definition REGISTERS : list string :=
  [ "$zero"; "$at"; "$v0"; "$v1"; "$a0"; "$a1"; "$a2"; "$a3";
    "$t0"; "$t1"; "$t2"; "$t3"; "$t4"; "$t5"; "$t6"; "$t7";
    "$s0"; "$s1"; "$s2"; "$s3"; "$s4"; "$s5"; "$s6"; "$s7";
    "$t8"; "$t9"; "$k0"; "$k1"; "$gp"; "$sp"; "$fp"; "$ra" ].

(** An index into the 32-entry register array. *)
Definition ridx (i : nat) : fin 32 :=
  match decide (i < 32)%nat with
  | left H => nat_to_fin H
  | right _ => 0%fin
  end.

(** [REGISTERS.reduce((acc, reg, idx) => ({ ...acc, [reg]: idx }), {})]. *)
Definition REG_MAP : gmap string (fin 32) :=
  foldl (λ acc p, <[p.2 := ridx p.1]> acc) ∅ (imap (λ idx reg, (idx, reg)) REGISTERS).

(** [REG_MAP] is a plain object: a lookup of one of these names finds the
    member inherited from [Object.prototype] (a function or an object)
    instead of [undefined]. *)
Definition Object_prototype : list string :=
  [ "constructor"; "hasOwnProperty"; "isPrototypeOf"; "propertyIsEnumerable";
    "toLocaleString"; "toString"; "valueOf"; "__proto__";
    "__defineGetter__"; "__defineSetter__"; "__lookupGetter__";
    "__lookupSetter__" ].

Definition DATA_START : Z := 0x10010000.
Definition STACK_START : Z := 0x7FFFFFFC.
Definition TEXT_START : Z := 0x00400000.

(** What [parseReg] can return. *)
Inductive parsed :=
  | PIdx (i : fin 32)                     (* a register index *)
  | PUndef                                (* [undefined] *)
  | PProto                                (* a member of [Object.prototype] *)
  | PMem (offset : num) (reg : parsed).   (* [{ offset, reg }] *)

(** [REG_MAP[str]]. *)
Definition REG_MAP_get (str : string) : parsed :=
  match REG_MAP !! str with
  | Some i => PIdx i
  | None => if bool_decide (str ∈ Object_prototype) then PProto else PUndef
  end.

(** [str.match(/(-?\d+)\((\$[a-z0-9]+)\)/)]: the leftmost match, as the pair
    of its two groups. *)
Definition is_digit (c : ascii) : bool :=
  let n := code c in (48 <=? n) && (n <=? 57).

Definition is_lower_alnum (c : ascii) : bool :=
  let n := code c in is_digit c || ((97 <=? n) && (n <=? 122)).

Fixpoint span (p : ascii → bool) (s : string) : string * string :=
  match s with
  | String c s' =>
      if p c then let '(a, b) := span p s' in (String c a, b)
      else (EmptyString, s)
  | EmptyString => (EmptyString, EmptyString)
  end.

Definition mem_operand_at (s : string) : option (string * string) :=
  let '(sign, s1) :=
    match s with String "-" s' => ("-", s') | _ => ("", s) end in
  let '(ds, s2) := span is_digit s1 in
  if String.eqb ds "" then None
  else match s2 with
       | String "(" (String "$" s3) =>
           let '(nm, s4) := span is_lower_alnum s3 in
           if String.eqb nm "" then None
           else match s4 with
                | String ")" _ => Some (sign +:+ ds, String "$" nm)
                | _ => None
                end
       | _ => None
       end.

Fixpoint match_mem_operand (s : string) : option (string * string) :=
  match mem_operand_at s with
  | Some r => Some r
  | None =>
      match s with
      | String _ s' => match_mem_operand s'
      | EmptyString => None
      end
  end.

(** [parseReg]: register strings like [$t0] or [0($t1)]. *)
Definition parseReg (str : option string) : parsed :=
  match str with
  | None | Some EmptyString => PIdx 0%fin
  | Some s =>
      let plain := REG_MAP_get s in
      if includes "(" s then
        match match_mem_operand s with
        | Some (m1, m2) => PMem (parseInt m1) (REG_MAP_get m2)
        | None => plain
        end
      else plain
  end.

(** [getRegVal]: [$zero] is always 0.  The register file is an
    [Int32Array(32)]; a key that is not an index names no property of it. *)
Definition getRegVal (nextRegs : vec Z 32) (rIdx : parsed) : jsval :=
  match rIdx with
  | PIdx i => if decide (i = 0%fin) then Num 0 else Num (Fin (nextRegs !!! i))
  | _ => Undefined
  end.

(** [nextRegs[key] = v]: an element store converts to a 32-bit integer; a
    key that is not an index only adds a property to this copy of the
    array, which is never read. *)
Definition setReg (nextRegs : vec Z 32) (key : parsed) (v : num) : vec Z 32 :=
  match key with
  | PIdx i => vinsert i (ToInt32 v) nextRegs
  | _ => nextRegs
  end.

(* ===================================================================== *)
(** ** Memory access helpers *)
(* ===================================================================== *)

(** Sparse memory map: address -> value (byte).  The keys of the object
    are the addresses (distinct numbers are distinct keys). *)
Abbreviation memory_t := (gmap num num).

(** [currentMem[addr] || 0]. *)
Definition load (currentMem : memory_t) (addr : num) : num :=
  match currentMem !! addr with
  | Some v => if truthy v then v else 0
  | None => 0
  end.

Definition getMemByte (addr : num) (currentMem : memory_t) : num :=
  load currentMem addr.

Definition getMemWord (addr : num) (currentMem : memory_t) : num :=
  js_or (js_or (js_or
    (js_shl (load currentMem addr) 24)
    (js_shl (load currentMem (js_add addr 1)) 16))
    (js_shl (load currentMem (js_add addr 2)) 8))
    (load currentMem (js_add addr 3)).

Definition setMemByte (addr : num) (val : num) (currentMem : memory_t) : memory_t :=
  <[addr := js_and val 0xFF]> currentMem.

Definition setMemWord (addr : num) (val : num) (currentMem : memory_t) : memory_t :=
  let nextMem := currentMem in
  let nextMem := <[addr := js_and (js_sar val 24) 0xFF]> nextMem in
  let nextMem := <[js_add addr 1 := js_and (js_sar val 16) 0xFF]> nextMem in
  let nextMem := <[js_add addr 2 := js_and (js_sar val 8) 0xFF]> nextMem in
  let nextMem := <[js_add addr 3 := js_and val 0xFF]> nextMem in
  nextMem.

(* ===================================================================== *)
(** ** Simulator state *)
(* ===================================================================== *)

Module Inst.
(** One assembled instruction: [{ pc, op, args, original, sourceLine }]. *)
Record t := mk {
  pc : num;
  op : string;
  args : list string;
  original : string;
  sourceLine : Z
}.
End Inst.

(** What a [catch] clause can receive.  Both are [TypeError]s. *)
Inductive exn :=
  | NotDestructurable   (* [const { offset, reg } = undefined] *)
  | NotAFunction.       (* [labelMap.hasOwnProperty] shadowed by a label *)

(** The two messages given to [setError]. *)
Inductive fault :=
  | AssemblerError (e : exn)
  | RuntimeError (pc : jsval) (e : exn).

(** The state held by [useMipsSimulator]. *)
Record state := mkState {
  regs : vec Z 32;
  pc : jsval;
  memory : memory_t;
  output : list Z;
  isRunning : bool;
  error : option fault;
  instructions : list Inst.t;
  labelMap : gmap string num;
  sourceMap : gmap num Z
}.

(** [new Int32Array(32)] with [newRegs[29] = STACK_START]. *)
Definition newRegs : vec Z 32 :=
  vinsert (ridx 29) STACK_START (vreplicate 32 0).

(** The first render: [useState] initial values. *)
Definition initial : state :=
  {| regs := vreplicate 32 0; pc := Num TEXT_START; memory := ∅;
     output := []; isRunning := false; error := None;
     instructions := []; labelMap := ∅; sourceMap := ∅ |}.

Definition reset (st : state) : state :=
  {| regs := newRegs; pc := Num TEXT_START; memory := ∅;
     output := []; isRunning := false; error := None;
     instructions := instructions st; labelMap := labelMap st;
     sourceMap := sourceMap st |}.

(** Code inside a [try] block either throws or returns. *)
Definition M (A : Type) : Type := exn + A.

#[global] Instance M_ret : MRet M := λ A x, inr x.
#[global] Instance M_bind : MBind M := λ A B f m,
  match m with inl e => inl e | inr x => f x end.

Definition throw {A} (e : exn) : M A := inl e.

(* ===================================================================== *)
(** ** Assembler *)
(* ===================================================================== *)

Inductive section := SecData | SecText.

(** The local variables of [assemble]. *)
Record asm := mkAsm {
  newInstructions : list Inst.t;
  newLabelMap : gmap string num;
  newSourceMap : gmap num Z;
  newDataSegment : memory_t;
  currentSection : section;
  dataPtr : num;
  textPtr : num
}.

Definition asm0 : asm :=
  {| newInstructions := []; newLabelMap := ∅; newSourceMap := ∅;
     newDataSegment := ∅; currentSection := SecText;
     dataPtr := DATA_START; textPtr := TEXT_START |}.

(** [obj[key] = v] on a plain object: assigning a number to [__proto__]
    changes nothing. *)
Definition set_prop {V} (key : string) (v : V) (obj : gmap string V) : gmap string V :=
  if String.eqb key "__proto__" then obj else <[key := v]> obj.

(** [for (j ...) newDataSegment[dataPtr++] = str.charCodeAt(j)]. *)
Fixpoint write_chars (str : string) (seg : memory_t) (ptr : num) : memory_t * num :=
  match str with
  | EmptyString => (seg, ptr)
  | String c str' => write_chars str' (<[ptr := Fin (code c)]> seg) (js_add ptr 1)
  end.

(** The [.data] branch of the loop body. *)
Definition assemble_data (line : string) (a : asm) : M asm :=
  let tokens := match_words line in
  let directive := tokens !! 0%nat in
  if bool_decide (directive = Some ".asciiz") || bool_decide (directive = Some ".ascii") then
    let str := js_substring (indexOf "034" line + 1) (lastIndexOf "034" line) line in
    let str := replace_escape "t" "009" (replace_escape "n" "010" str) in
    let '(seg, ptr) := write_chars str (newDataSegment a) (dataPtr a) in
    let '(seg, ptr) :=
      if bool_decide (directive = Some ".asciiz")
      then (<[ptr := Fin 0]> seg, js_add ptr 1) else (seg, ptr) in
    mret {| newInstructions := newInstructions a; newLabelMap := newLabelMap a;
            newSourceMap := newSourceMap a; newDataSegment := seg;
            currentSection := currentSection a; dataPtr := ptr;
            textPtr := textPtr a |}
  else if bool_decide (directive = Some ".word") then
    let val := parseInt (ToString (tokens !! 1%nat)) in
    let ptr := dataPtr a in
    let seg := newDataSegment a in
    let seg := <[ptr := js_and (js_sar val 24) 0xFF]> seg in
    let seg := <[js_add ptr 1 := js_and (js_sar val 16) 0xFF]> seg in
    let seg := <[js_add ptr 2 := js_and (js_sar val 8) 0xFF]> seg in
    let seg := <[js_add ptr 3 := js_and val 0xFF]> seg in
    mret {| newInstructions := newInstructions a; newLabelMap := newLabelMap a;
            newSourceMap := newSourceMap a; newDataSegment := seg;
            currentSection := currentSection a; dataPtr := js_add ptr 4;
            textPtr := textPtr a |}
  else mret a.

(** The [.text] branch of the loop body. *)
Definition assemble_text (i : Z) (line : string) (a : asm) : M asm :=
  let cleanLine := replace_char "," " " line in
  match match_words cleanLine with
  | [] => mret a
  | op :: args =>
      let inst := {| Inst.pc := textPtr a; Inst.op := op; Inst.args := args;
                     Inst.original := line; Inst.sourceLine := i + 1 |} in
      mret {| newInstructions := newInstructions a ++ [inst];
              newLabelMap := newLabelMap a;
              newSourceMap := <[textPtr a := i + 1]> (newSourceMap a);
              newDataSegment := newDataSegment a;
              currentSection := currentSection a; dataPtr := dataPtr a;
              textPtr := js_add (textPtr a) 4 |}
  end.

Definition with_section (s : section) (a : asm) : asm :=
  {| newInstructions := newInstructions a; newLabelMap := newLabelMap a;
     newSourceMap := newSourceMap a; newDataSegment := newDataSegment a;
     currentSection := s; dataPtr := dataPtr a; textPtr := textPtr a |}.

Definition with_label (label : string) (a : asm) : asm :=
  let ptr := match currentSection a with
             | SecText => textPtr a | SecData => dataPtr a end in
  {| newInstructions := newInstructions a;
     newLabelMap := set_prop label ptr (newLabelMap a);
     newSourceMap := newSourceMap a; newDataSegment := newDataSegment a;
     currentSection := currentSection a; dataPtr := dataPtr a;
     textPtr := textPtr a |}.

(** One iteration of the loop over [lines], for line number [i] (0-based). *)
Definition assemble_line (i : Z) (raw : string) (a : asm) : M asm :=
  let line := trim raw in
  (* Remove comments *)
  let commentIdx := indexOf "#" line in
  let line := if commentIdx =? -1 then line
              else trim (js_substring 0 commentIdx line) in
  if String.eqb line "" then mret a
  (* Section directives *)
  else if String.eqb line ".data" then mret (with_section SecData a)
  else if String.eqb line ".text" then mret (with_section SecText a)
  else
    (* Label detection *)
    let '(line, a) :=
      if includes ":" line then
        let parts := split ":" line in
        let label := trim (default "" (head parts)) in
        (trim (join ":" (tail parts)), with_label label a)
      else (line, a) in
    if String.eqb line "" then mret a
    else match currentSection a with
         | SecData => assemble_data line a
         | SecText => assemble_text i line a
         end.

Fixpoint assemble_loop (i : Z) (lines : list string) (a : asm) : M asm :=
  match lines with
  | [] => mret a
  | raw :: rest => a' ← assemble_line i raw a; assemble_loop (i + 1) rest a'
  end.

(** [assemble]: the machine is reset before the [try] block; the program
    and the memory are replaced at its end, or the error is set in
    [catch]. *)
Definition assemble (sourceCode : string) (st : state) : state :=
  let lines := split "010" sourceCode in
  match assemble_loop 0 lines asm0 with
  | inr a =>
      {| regs := newRegs; pc := Num TEXT_START; memory := newDataSegment a;
         output := []; isRunning := false; error := None;
         instructions := newInstructions a; labelMap := newLabelMap a;
         sourceMap := newSourceMap a |}
  | inl e =>
      {| regs := newRegs; pc := Num TEXT_START; memory := memory st;
         output := []; isRunning := false; error := Some (AssemblerError e);
         instructions := instructions st; labelMap := labelMap st;
         sourceMap := sourceMap st |}
  end.

(* ===================================================================== *)
(** ** Execution step *)
(* ===================================================================== *)

Inductive mnemonic :=
  | ADD | ADDU | SUB | SUBU | ADDI | ADDIU | MUL | AND | OR | XOR
  | SLL | SRL | SLT | SLTI | LUI | LI | LA | MOVE
  | LW | SW | LB | SB
  | BEQ | BNE | J | JAL | JR
  | SYSCALL
  | UNKNOWN.

Definition mnemonics : list (string * mnemonic) :=
  [ ("add", ADD); ("addu", ADDU); ("sub", SUB); ("subu", SUBU);
    ("addi", ADDI); ("addiu", ADDIU); ("mul", MUL); ("and", AND);
    ("or", OR); ("xor", XOR); ("sll", SLL); ("srl", SRL); ("slt", SLT);
    ("slti", SLTI); ("lui", LUI); ("li", LI); ("la", LA); ("move", MOVE);
    ("lw", LW); ("sw", SW); ("lb", LB); ("sb", SB);
    ("beq", BEQ); ("bne", BNE); ("j", J); ("jal", JAL); ("jr", JR);
    ("syscall", SYSCALL) ].

(** The [case] label that [switch (op)] selects. *)
Definition mnemonic_of (op : string) : mnemonic :=
  match find (λ p, String.eqb op p.1) mnemonics with
  | Some p => p.2
  | None => UNKNOWN
  end.

(** The local variables of the [try] block of [step], and whether
    [setIsRunning(false)] was called. *)
Record locals := mkLocals {
  nextPc : jsval;
  nextRegs : vec Z 32;
  nextMem : memory_t;
  outputAppend : list Z;
  stopped : bool
}.

(** [getImmOrLabel]: resolve a label or an immediate.  The call of
    [labelMap.hasOwnProperty] throws when a label of that name shadows the
    inherited method. *)
Definition getImmOrLabel (labelMap : gmap string num) (str : option string) : M num :=
  match labelMap !! "hasOwnProperty" with
  | Some _ => throw NotAFunction
  | None =>
      match labelMap !! ToString str with
      | Some a => mret a
      | None => mret (parseInt (ToString str))
      end
  end.

(** [const { offset, reg } = parseReg(str)]. *)
Definition destructure (p : parsed) : M (jsval * parsed) :=
  match p with
  | PUndef => throw NotDestructurable
  | PMem offset reg => mret (Num offset, reg)
  | PIdx _ | PProto => mret (Undefined, PUndef)
  end.

(** The [while] loop of [print_string]; [fuel] is [1000 - loopGuard]. *)
Fixpoint print_string_loop (fuel : nat) (currentMem : memory_t)
    (addr char : num) (str : list Z) : list Z :=
  match fuel with
  | O => str
  | S fuel' =>
      if num_strict_eq char 0 then str
      else
        let str := str ++ [ToUint16 char] in
        let addr := js_add addr 1 in
        print_string_loop fuel' currentMem addr (getMemByte addr currentMem) str
  end.

Definition print_string (currentMem : memory_t) (addr : num) : list Z :=
  print_string_loop 1000 currentMem addr (getMemByte addr currentMem) [].

Section exec.
Context (pc : jsval) (regs : vec Z 32) (memory : memory_t).
Context (labelMap : gmap string num) (args : list string).

Let nextPc : jsval := Num (js_add (ToNumber pc) 4).
Let nextRegs : vec Z 32 := regs.   (* [new Int32Array(regs)] *)
Let nextMem : memory_t := memory.  (* [{ ...memory }] *)

(** [args[k]] and [getRegVal(parseReg(args[k]))]. *)
Definition arg (k : nat) : option string := args !! k.
Definition operand (k : nat) : jsval := getRegVal nextRegs (parseReg (arg k)).
Definition imm (k : nat) : num := parseInt (ToString (arg k)).

(** [nextRegs[parseReg(args[0])] = v; break;] *)
Definition assign (v : num) : M locals :=
  mret (mkLocals nextPc (setReg nextRegs (parseReg (arg 0)) v) nextMem [] false).

(** [getRegVal(reg) + offset] for the operand [args[1]] of a load or a
    store. *)
Definition address : M num :=
  '(offset, reg) ← destructure (parseReg (arg 1));
  mret (js_add (ToNumber (getRegVal nextRegs reg)) (ToNumber offset)).

Definition exec (m : mnemonic) : M locals :=
  match m with
  | ADD | ADDU =>
      assign (js_add (ToNumber (operand 1)) (ToNumber (operand 2)))
  | SUB | SUBU =>
      assign (js_sub (ToNumber (operand 1)) (ToNumber (operand 2)))
  | ADDI | ADDIU =>
      assign (js_add (ToNumber (operand 1)) (imm 2))
  | MUL => assign (js_imul (ToNumber (operand 1)) (ToNumber (operand 2)))
  | AND => assign (js_and (ToNumber (operand 1)) (ToNumber (operand 2)))
  | OR => assign (js_or (ToNumber (operand 1)) (ToNumber (operand 2)))
  | XOR => assign (js_xor (ToNumber (operand 1)) (ToNumber (operand 2)))
  | SLL => assign (js_shl (ToNumber (operand 1)) (imm 2))
  | SRL => assign (js_shr (ToNumber (operand 1)) (imm 2))
  | SLT =>
      assign (if js_lt (ToNumber (operand 1)) (ToNumber (operand 2))
              then 1 else 0)
  | SLTI =>
      assign (if js_lt (ToNumber (operand 1)) (imm 2) then 1 else 0)
  | LUI => assign (js_shl (imm 1) 16)
  | LI => assign (imm 1)
  | LA => v ← getImmOrLabel labelMap (arg 1); assign v
  | MOVE => assign (ToNumber (operand 1))
  (* Memory *)
  | LW => addr ← address; assign (getMemWord addr nextMem)
  | SW =>
      addr ← address;
      mret (mkLocals nextPc nextRegs
              (setMemWord addr (ToNumber (operand 0)) nextMem) [] false)
  | LB =>
      addr ← address;
      let byte := getMemByte addr nextMem in
      (* Sign extension for lb *)
      let byte := if truthy (js_and byte 0x80)
                  then js_or byte 0xFFFFFF00 else byte in
      assign byte
  | SB =>
      addr ← address;
      mret (mkLocals nextPc nextRegs
              (setMemByte addr (ToNumber (operand 0)) nextMem) [] false)
  (* Control flow *)
  | BEQ =>
      if strict_eq (operand 0) (operand 1) then
        target ← getImmOrLabel labelMap (arg 2);
        mret (mkLocals (Num target) nextRegs nextMem [] false)
      else mret (mkLocals nextPc nextRegs nextMem [] false)
  | BNE =>
      if negb (strict_eq (operand 0) (operand 1)) then
        target ← getImmOrLabel labelMap (arg 2);
        mret (mkLocals (Num target) nextRegs nextMem [] false)
      else mret (mkLocals nextPc nextRegs nextMem [] false)
  | J =>
      target ← getImmOrLabel labelMap (arg 0);
      mret (mkLocals (Num target) nextRegs nextMem [] false)
  | JAL =>
      let nextRegs := vinsert (ridx 31) (ToInt32 (js_add (ToNumber pc) 4)) nextRegs in
      target ← getImmOrLabel labelMap (arg 0);
      mret (mkLocals (Num target) nextRegs nextMem [] false)
  | JR => mret (mkLocals (operand 0) nextRegs nextMem [] false)
  | SYSCALL =>
      let v0 := nextRegs !!! ridx 2 in
      let a0 := nextRegs !!! ridx 4 in
      if v0 =? 1 then (* print_int *)
        mret (mkLocals nextPc nextRegs nextMem (decimal a0) false)
      else if v0 =? 4 then (* print_string *)
        mret (mkLocals nextPc nextRegs nextMem (print_string nextMem a0) false)
      else if v0 =? 10 then (* exit *)
        mret (mkLocals (Num 0) nextRegs nextMem [] true)
      else if v0 =? 11 then (* print_char *)
        mret (mkLocals nextPc nextRegs nextMem [ToUint16 a0] false)
      else mret (mkLocals nextPc nextRegs nextMem [] false)
  (* Ignore unknown ops *)
  | UNKNOWN => mret (mkLocals nextPc nextRegs nextMem [] false)
  end.
End exec.

(** [instructions.find(inst => inst.pc === pc)]. *)
Definition fetch (st : state) : option Inst.t :=
  find (λ inst, strict_eq (Num (Inst.pc inst)) (pc st)) (instructions st).

(** The state after the [set...] calls that end the [try] block. *)
Definition commit (st : state) (l : locals) : state :=
  {| regs := nextRegs l; pc := nextPc l; memory := nextMem l;
     output := match outputAppend l with
               | [] => output st
               | _ => output st ++ outputAppend l
               end;
     isRunning := if stopped l then false else isRunning st;
     error := error st;
     instructions := instructions st; labelMap := labelMap st;
     sourceMap := sourceMap st |}.

(** The state after the [catch] clause. *)
Definition fail (st : state) (e : exn) : state :=
  {| regs := regs st; pc := pc st; memory := memory st; output := output st;
     isRunning := false; error := Some (RuntimeError (pc st) e);
     instructions := instructions st; labelMap := labelMap st;
     sourceMap := sourceMap st |}.

Definition halt (st : state) : state :=
  {| regs := regs st; pc := pc st; memory := memory st; output := output st;
     isRunning := false; error := error st;
     instructions := instructions st; labelMap := labelMap st;
     sourceMap := sourceMap st |}.

Definition step (st : state) : state :=
  match error st with
  | Some _ => st
  | None =>
      match fetch st with
      | None => halt st
      | Some currentInst =>
          match exec (pc st) (regs st) (memory st) (labelMap st)
                  (Inst.args currentInst) (mnemonic_of (Inst.op currentInst)) with
          | inr l => commit st l
          | inl e => fail st e
          end
      end
  end.

(** [n] calls of [step] in a row. *)
Definition steps (n : nat) (st : state) : state := Nat.iter n step st.
(** [DEFAULT_CODE], line by line ([dq] is the double quote). *)
Definition dq : string := String "034" "".
Definition nl : string := String "010" "".

Definition DEFAULT_CODE : string :=
  join nl
    [ "# MIPS Fibonacci Generator";
      "# Calculates the first N Fibonacci numbers";
      "";
      ".data";
      "msg_start: .asciiz " +:+ dq +:+ "Fibonacci Sequence: " +:+ dq;
      "space:     .asciiz " +:+ dq +:+ ", " +:+ dq;
      "newline:   .asciiz " +:+ dq +:+ "\n" +:+ dq;
      "";
      ".text";
      "main:";
      "    # Initialize variables";
      "    addi $t0, $zero, 10    # N = 10 (count)";
      "    addi $t1, $zero, 0     # a = 0";
      "    addi $t2, $zero, 1     # b = 1";
      "    ";
      "    # Print start message";
      "    li $v0, 4";
      "    la $a0, msg_start";
      "    syscall";
      "    ";
      "    # Print first number (0)";
      "    li $v0, 1";
      "    add $a0, $zero, $t1";
      "    syscall";
      "    ";
      "    # Print space";
      "    li $v0, 4";
      "    la $a0, space";
      "    syscall";
      "";
      "loop:";
      "    # Check if N <= 0";
      "    beq $t0, $zero, exit";
      "    ";
      "    # Calculate next: c = a + b";
      "    add $t3, $t1, $t2";
      "    ";
      "    # Move: a = b, b = c";
      "    add $t1, $zero, $t2";
      "    add $t2, $zero, $t3";
      "    ";
      "    # Print current number (b)";
      "    li $v0, 1";
      "    add $a0, $zero, $t1";
      "    syscall";
      "    ";
      "    # Decrement counter";
      "    addi $t0, $t0, -1";
      "    ";
      "    # Print separator if not last";
      "    beq $t0, $zero, skip_comma";
      "    li $v0, 4";
      "    la $a0, space";
      "    syscall";
      "    ";
      "skip_comma:";
      "    j loop";
      "";
      "exit:";
      "    # Print newline";
      "    li $v0, 4";
      "    la $a0, newline";
      "    syscall";
      "";
      "    # Exit program";
      "    li $v0, 10";
      "    syscall";
      "" ].

(** The state once the application has mounted: [assemble(DEFAULT_CODE)]. *)
Definition mounted : state := assemble DEFAULT_CODE initial.

(* ===================================================================== *)
(** ** Vocabulary of the statements *)
(* ===================================================================== *)

(** Byte [k] (0 = least significant) of the two's-complement pattern of a
    32-bit value. *)
Definition byte_of (V : Z) (k : Z) : Z := (V / 2 ^ (8 * k)) mod 256.

(** The Fibonacci numbers. *)
Fixpoint fib_pair (n : nat) : Z * Z :=
  match n with
  | O => (0, 1)
  | S k => let '(a, b) := fib_pair k in (b, a + b)
  end.

Definition fib (n : nat) : Z := (fib_pair n).1.

(** [parts.join(sep)] on code-unit strings. *)
Fixpoint join_codes (sep : list Z) (parts : list (list Z)) : list Z :=
  match parts with
  | [] => []
  | [w] => w
  | w :: ws => w ++ sep ++ join_codes sep ws
  end.

(** What the console shows once the default program has run. *)
Definition reference_output : list Z :=
  codes "Fibonacci Sequence: 0, 1, 1, 2, 3, 5, 8, 13, 21, 34, 55" ++ [10].

(** The address reached after [k] executions of [addr++]. *)
Definition addr_plus (addr : num) (k : nat) : num :=
  Nat.iter k (λ a, js_add a 1) addr.

(** The additions and subtractions of the instruction set. *)
Definition is_add_sub (m : mnemonic) : bool :=
  match m with
  | ADD | ADDU | SUB | SUBU | ADDI | ADDIU => true
  | _ => false
  end.

(** Their exact result on the integers [x] and [y]. *)
Definition add_sub_result (m : mnemonic) (x y : Z) : Z :=
  match m with
  | SUB | SUBU => x - y
  | _ => x + y
  end.

(** Their second source operand: the immediate [parseInt(args[2])] of
    [addi]/[addiu], the register [args[2]] otherwise. *)
Definition second_operand (m : mnemonic) (regs : vec Z 32) (args : list string) : num :=
  match m with
  | ADDI | ADDIU => imm args 2
  | _ => ToNumber (operand regs args 2)
  end.

(** Two register arrays that agree on every register but [$zero]. *)
Definition agree_but_zero (r1 r2 : vec Z 32) : Prop :=
  ∀ i : fin 32, i ≠ 0%fin → r1 !!! i = r2 !!! i.

(** Two simulator states that differ at most in slot 0 of the register
    array. *)
Definition same_but_zero (s1 s2 : state) : Prop :=
  agree_but_zero (regs s1) (regs s2)
  ∧ pc s1 = pc s2 ∧ memory s1 = memory s2 ∧ output s1 = output s2
  ∧ isRunning s1 = isRunning s2 ∧ error s1 = error s2
  ∧ instructions s1 = instructions s2 ∧ labelMap s1 = labelMap s2
  ∧ sourceMap s1 = sourceMap s2.

(** Two sets of locals of [step] that differ at most in slot 0 of
    [nextRegs]. *)
Definition locals_but_zero (l1 l2 : locals) : Prop :=
  agree_but_zero (nextRegs l1) (nextRegs l2)
  ∧ nextPc l1 = nextPc l2 ∧ nextMem l1 = nextMem l2
  ∧ outputAppend l1 = outputAppend l2 ∧ stopped l1 = stopped l2.

(** The operand of a branch or jump that names its target. *)
Definition target_operand (m : mnemonic) (args : list string) : option string :=
  match m with
  | BEQ | BNE => arg args 2
  | _ => arg args 0
  end.

(** Whether a branch or jump transfers control: always for [j] and [jal],
    when the comparison says so for [beq] and [bne]. *)
Definition taken (m : mnemonic) (regs : vec Z 32) (args : list string) : bool :=
  match m with
  | BEQ => strict_eq (operand regs args 0) (operand regs args 1)
  | BNE => negb (strict_eq (operand regs args 0) (operand regs args 1))
  | J | JAL => true
  | _ => false
  end.

(** An address the assembler can give to an instruction: a multiple of 4
    (the text pointer stops growing at 2^55, where adding 4 to a double no
    longer changes it). *)
Definition text_address (p : num) : Prop :=
  ∃ t : Z, p = Fin t ∧ 0 <= t <= 2 ^ 55 ∧ t mod 4 = 0.

(** A program counter that is a multiple of 4. *)
Definition aligned (v : jsval) : Prop :=
  ∃ q : Z, v = Num (Fin q) ∧ q mod 4 = 0.

(** The value a control-transfer instruction assigns to [nextPc] when it
    transfers: the resolved target of [beq], [bne], [j] and [jal], the
    register value of [jr]. *)
Definition transfer_target (m : mnemonic) (regs : vec Z 32)
    (labelMap : gmap string num) (args : list string) : option jsval :=
  match m with
  | JR => Some (operand regs args 0)
  | BEQ | BNE | J | JAL =>
      match getImmOrLabel labelMap (target_operand m args) with
      | inr t => Some (Num t)
      | inl _ => None
      end
  | _ => None
  end.

(** The assembler's text pointer and the addresses it has handed out. *)
Definition asm_ok (a : asm) : Prop :=
  text_address (textPtr a)
  ∧ Forall (λ inst, text_address (Inst.pc inst)) (newInstructions a).

(** A state with slot 0 of the register array overwritten. *)
Definition with_slot0 (z : Z) (st : state) : state :=
  {| regs := vinsert 0%fin z (regs st); pc := pc st; memory := memory st;
     output := output st; isRunning := isRunning st; error := error st;
     instructions := instructions st; labelMap := labelMap st;
     sourceMap := sourceMap st |}.

(** The instructions that store into the register named by [args[0]]. *)
Definition writes_destination (m : mnemonic) : bool :=
  match m with
  | ADD | ADDU | SUB | SUBU | ADDI | ADDIU | MUL | AND | OR | XOR
  | SLL | SRL | SLT | SLTI | LUI | LI | LA | MOVE | LW | LB => true
  | _ => false
  end.

(** A signed 32-bit integer. *)
Definition int32 (z : Z) : Prop := - 2 ^ 31 <= z < 2 ^ 31.

(** A memory whose stored values are all bytes. *)
Definition byte_memory (m : memory_t) : Prop :=
  ∀ (a v : num), m !! a = Some v → ∃ b : Z, v = Fin b ∧ 0 <= b < 256.

(** The loads and stores. *)
Definition is_memory_access (m : mnemonic) : bool :=
  match m with LW | SW | LB | SB => true | _ => false end.

(** The instructions that resolve a label or immediate operand. *)
Definition resolves_label (m : mnemonic) : bool :=
  match m with LA | BEQ | BNE | J | JAL => true | _ => false end.

(** Sign extension of a byte to a signed integer. *)
Definition sign_extend8 (b : Z) : Z := if b <? 128 then b else b - 256.

(** The value [lb] stores for the byte it has read: sign extension by
    [byte |= 0xFFFFFF00] when [byte & 0x80] is set. *)
Definition lb_value (byte : num) : num :=
  if truthy (js_and byte 0x80) then js_or byte 0xFFFFFF00 else byte.

(** The address of the [k]-th instruction: [TEXT_START + 4k], as far as
    [textPtr += 4] still changes the text pointer (below 2^55). *)
Definition text_addr (k : nat) : Z := Z.min (TEXT_START + 4 * Z.of_nat k) (2 ^ 55).

(** The layout the assembler keeps: the text pointer is the address of the
    next instruction, the [k]-th instruction has the [k]-th address, and
    the source map sends each address to the line of its instruction. *)
Definition layout (a : asm) : Prop :=
  textPtr a = Fin (text_addr (length (newInstructions a)))
  ∧ (∀ k inst, newInstructions a !! k = Some inst →
       Inst.pc inst = Fin (text_addr k))
  ∧ (∀ k inst, newInstructions a !! k = Some inst →
       TEXT_START + 4 * Z.of_nat k < 2 ^ 55 →
       newSourceMap a !! Inst.pc inst = Some (Inst.sourceLine inst)).

(** A memory that holds the characters of [str] from address [P] on,
    followed by a zero byte, none of the characters being NUL. *)
Fixpoint holds_string (m : memory_t) (P : Z) (str : string) : Prop :=
  match str with
  | EmptyString => load m (Fin P) = Fin 0
  | String c str' =>
      load m (Fin P) = Fin (code c) ∧ code c ≠ 0 ∧ holds_string m (P + 1) str'
  end.

(** The characters that [.asciiz] and [.ascii] store for a source line:
    the text between the first and the last double quote, with the escapes
    [\n] and [\t] replaced. *)
Definition string_literal (line : string) : string :=
  replace_escape "t" "009"
    (replace_escape "n" "010"
       (js_substring (indexOf "034" line + 1) (lastIndexOf "034" line) line)).

#[global] Instance parsed_eq_dec : EqDecision parsed.
Proof. solve_decision. Defined.

(** What makes the [i]-th register name usable inside [offset(register)]:
    it is [$] followed by lower-case letters and digits, and [REG_MAP]
    sends it to [i]. *)
Definition register_name_ok (i : fin 32) : bool :=
  match REGISTERS !! fin_to_nat i with
  | Some (String "$" nm) =>
      negb (String.eqb nm "")
      && bool_decide (span is_lower_alnum (nm +:+ ")") = (nm, ")"))
      && bool_decide (REG_MAP_get (String "$" nm) = PIdx i)
      && bool_decide (parseReg (Some (String "$" nm)) = PIdx i)
  | _ => false
  end.

(** A string of decimal digits. *)
Fixpoint all_digits (s : string) : bool :=
  match s with
  | EmptyString => true
  | String c s' => is_digit c && all_digits s'
  end.

(** A source line as the assembler looks at it: trimmed, and cut at the
    first [#]. *)
Definition stripped (raw : string) : string :=
  let line := trim raw in
  let commentIdx := indexOf "#" line in
  if commentIdx =? -1 then line else trim (js_substring 0 commentIdx line).

(** The label of a line that contains a colon: the text before the first
    colon, trimmed. *)
Definition label_of (line : string) : string :=
  trim (default "" (head (split ":" line))).

(** The pointer of the current section. *)
Definition section_ptr (a : asm) : num :=
  match currentSection a with SecText => textPtr a | SecData => dataPtr a end.

(** The characters of a string. *)
Definition chars (s : string) : list ascii := list_ascii_of_string s.

(** A token as the text branch of the assembler produces them: not empty,
    and free of blanks and commas. *)
Definition clean_token (w : string) : Prop :=
  w ≠ "" ∧ ∀ c, In c (chars w) → is_ws c = false ∧ c ≠ ","%char.

(* ===================================================================== *)
(** * Properties *)
(* ===================================================================== *)

(* ===================================================================== *)
(** ** Arithmetic of the number model *)
(* ===================================================================== *)

Lemma to_double_exact (z : Z) : Z.abs z <= 2 ^ 53 → to_double z = Fin z.
Proof.
  intros H. unfold to_double.
  destruct (Z.leb_spec (Z.abs z) (2 ^ 53)) as [_|Hgt]; [reflexivity | lia].
Qed.

Lemma js_add_exact (x y : Z) :
  Z.abs (x + y) <= 2 ^ 53 → js_add (Fin x) (Fin y) = Fin (x + y).
Proof. intros H. simpl. by apply to_double_exact. Qed.

Lemma wrap32_range (z : Z) : - 2 ^ 31 <= wrap32 z < 2 ^ 31.
Proof. unfold wrap32. pose proof (Z.mod_pos_bound (z + 2 ^ 31) (2 ^ 32)). lia. Qed.

Lemma wrap32_id (z : Z) : - 2 ^ 31 <= z < 2 ^ 31 → wrap32 z = z.
Proof. intros H. unfold wrap32. rewrite Z.mod_small; lia. Qed.

Lemma wrap32_mod (z : Z) : wrap32 z mod 2 ^ 32 = z mod 2 ^ 32.
Proof.
  unfold wrap32. rewrite (Z.mod_eq (z + 2 ^ 31) (2 ^ 32)) by lia.
  replace (z + 2 ^ 31 - 2 ^ 32 * ((z + 2 ^ 31) / 2 ^ 32) - 2 ^ 31)
    with (z + (- ((z + 2 ^ 31) / 2 ^ 32)) * 2 ^ 32) by lia.
  apply Z.mod_add. lia.
Qed.

(** The signed 32-bit representative of a residue class. *)
Lemma wrap32_unique (z w : Z) :
  - 2 ^ 31 <= w < 2 ^ 31 → (z - w) mod 2 ^ 32 = 0 → wrap32 z = w.
Proof.
  intros Hw Hmod. apply Z.mod_divide in Hmod as [k Hk]; [|lia].
  unfold wrap32. replace (z + 2 ^ 31) with (w + 2 ^ 31 + k * 2 ^ 32) by lia.
  rewrite Z.mod_add by lia. rewrite Z.mod_small; lia.
Qed.

(** Bits that do not overlap add up. *)
Lemma lor_high_low (a b k : Z) :
  0 <= k → 0 <= b < 2 ^ k → Z.lor (a * 2 ^ k) b = a * 2 ^ k + b.
Proof.
  intros Hk Hb. symmetry. apply Z.add_nocarry_lor.
  apply Z.bits_inj'. intros n Hn. rewrite Z.land_spec, Z.bits_0.
  destruct (Z.lt_ge_cases n k) as [Hlt|Hge].
  - rewrite Z.mul_pow2_bits_low by lia. reflexivity.
  - destruct (Z.eq_dec b 0) as [->|Hb0]; [by rewrite Z.bits_0, andb_false_r|].
    rewrite (Z.bits_above_log2 b n), andb_false_r; [reflexivity|lia|].
    apply Z.log2_lt_pow2; [lia|].
    apply Z.lt_le_trans with (2 ^ k); [lia|]. apply Z.pow_le_mono_r; lia.
Qed.

Lemma land_255 (z : Z) : Z.land z 255 = z mod 256.
Proof. change 255 with (Z.ones 8). rewrite Z.land_ones by lia. reflexivity. Qed.

(* ===================================================================== *)
(** ** Memory *)
(* ===================================================================== *)

Lemma load_absent (m : memory_t) (a : num) : m !! a = None → load m a = 0.
Proof. unfold load. by intros ->. Qed.

Lemma load_insert_eq (m : memory_t) (a : num) (b : Z) :
  load (<[a := Fin b]> m) a = Fin b.
Proof.
  unfold load. rewrite lookup_insert_eq. simpl.
  destruct (Z.eqb_spec b 0) as [->|]; reflexivity.
Qed.

Lemma load_insert_ne (m : memory_t) (a a' v : num) :
  a ≠ a' → load (<[a := v]> m) a' = load m a'.
Proof. intros H. unfold load. by rewrite lookup_insert_ne. Qed.

Lemma store_byte (V s : Z) :
  - 2 ^ 31 <= V < 2 ^ 31 → 0 <= s <= 24 →
  js_and (js_sar V s) 0xFF = Fin ((V / 2 ^ s) mod 256).
Proof.
  intros HV Hk. unfold js_and, js_sar. simpl ToInt32. simpl ToUint32.
  f_equal. rewrite (wrap32_id V) by lia. rewrite (wrap32_id 255) by lia.
  assert (Hs : s mod 2 ^ 32 mod 32 = s).
  { rewrite (Z.mod_small s) by lia. apply Z.mod_small. lia. }
  rewrite Hs, Z.shiftr_div_pow2 by lia.
  rewrite wrap32_id; [apply land_255|].
  assert (0 < 2 ^ s) by (apply Z.pow_pos_nonneg; lia).
  split.
  - apply Z.div_le_lower_bound; [lia|]. nia.
  - apply Z.div_lt_upper_bound; [lia|]. nia.
Qed.

Lemma store_low_byte (V : Z) :
  - 2 ^ 31 <= V < 2 ^ 31 → js_and V 0xFF = Fin (byte_of V 0).
Proof.
  intros HV. unfold js_and, byte_of. simpl ToInt32. f_equal.
  rewrite (wrap32_id V), (wrap32_id 255) by lia.
  change (2 ^ (8 * 0)) with 1. rewrite Z.div_1_r. apply land_255.
Qed.

Lemma byte_of_range (V k : Z) : 0 <= byte_of V k < 256.
Proof. unfold byte_of. apply Z.mod_pos_bound. lia. Qed.

Lemma shl_byte (b s : Z) :
  0 <= b < 256 → 0 <= s <= 16 → js_shl (Fin b) s = Fin (b * 2 ^ s).
Proof.
  intros Hb Hk. unfold js_shl. simpl ToInt32. simpl ToUint32. f_equal.
  assert (Hs : s mod 2 ^ 32 mod 32 = s).
  { rewrite (Z.mod_small s) by lia. apply Z.mod_small. lia. }
  rewrite Hs, (wrap32_id b), Z.shiftl_mul_pow2 by lia.
  apply wrap32_id.
  assert (2 ^ s <= 2 ^ 16) by (apply Z.pow_le_mono_r; lia).
  assert (0 < 2 ^ s) by (apply Z.pow_pos_nonneg; lia).
  nia.
Qed.

Lemma shl_top_byte (V : Z) :
  - 2 ^ 31 <= V < 2 ^ 31 →
  js_shl (Fin (byte_of V 3)) 24 = Fin (V / 2 ^ 24 * 2 ^ 24).
Proof.
  intros HV. unfold js_shl. simpl ToInt32. simpl ToUint32. f_equal.
  pose proof (byte_of_range V 3) as Hb.
  change (24 mod 2 ^ 32 mod 32) with 24.
  rewrite (wrap32_id (byte_of V 3)), Z.shiftl_mul_pow2 by lia.
  apply wrap32_unique.
  - assert (- 128 <= V / 2 ^ 24 < 128); [|lia].
    split; [apply Z.div_le_lower_bound | apply Z.div_lt_upper_bound]; lia.
  - unfold byte_of. change (8 * 3) with 24.
    rewrite (Z.mod_eq (V / 2 ^ 24) 256) by lia.
    replace (_ - _) with (- (V / 2 ^ 24 / 256) * 2 ^ 32) by lia.
    apply Z.mod_mul. lia.
Qed.

(** Big-endian composition of the four stored bytes gives the value back. *)
Lemma compose_bytes (V : Z) :
  - 2 ^ 31 <= V < 2 ^ 31 →
  js_or (js_or (js_or
    (js_shl (Fin (byte_of V 3)) 24)
    (js_shl (Fin (byte_of V 2)) 16))
    (js_shl (Fin (byte_of V 1)) 8))
    (Fin (byte_of V 0)) = Fin V.
Proof.
  intros HV.
  pose proof (byte_of_range V 0) as H0. pose proof (byte_of_range V 1) as H1.
  pose proof (byte_of_range V 2) as H2.
  rewrite (shl_top_byte V HV).
  rewrite (shl_byte (byte_of V 2) 16 H2), (shl_byte (byte_of V 1) 8 H1) by lia.
  unfold js_or. simpl ToInt32. f_equal.
  assert (Hq : - 128 <= V / 2 ^ 24 < 128).
  { split; [apply Z.div_le_lower_bound | apply Z.div_lt_upper_bound]; lia. }
  rewrite (wrap32_id (V / 2 ^ 24 * 2 ^ 24)) by lia.
  rewrite (wrap32_id (byte_of V 2 * 2 ^ 16)) by lia.
  rewrite (wrap32_id (byte_of V 1 * 2 ^ 8)) by lia.
  rewrite (wrap32_id (byte_of V 0)) by lia.
  rewrite (lor_high_low (V / 2 ^ 24) (byte_of V 2 * 2 ^ 16) 24) by lia.
  rewrite (wrap32_id (V / 2 ^ 24 * 2 ^ 24 + byte_of V 2 * 2 ^ 16)) by lia.
  replace (V / 2 ^ 24 * 2 ^ 24 + byte_of V 2 * 2 ^ 16)
    with ((V / 2 ^ 24 * 2 ^ 8 + byte_of V 2) * 2 ^ 16) by lia.
  rewrite (lor_high_low _ (byte_of V 1 * 2 ^ 8) 16) by lia.
  rewrite (wrap32_id (_ + byte_of V 1 * 2 ^ 8)) by lia.
  replace ((V / 2 ^ 24 * 2 ^ 8 + byte_of V 2) * 2 ^ 16 + byte_of V 1 * 2 ^ 8)
    with (((V / 2 ^ 24 * 2 ^ 8 + byte_of V 2) * 2 ^ 8 + byte_of V 1) * 2 ^ 8) by lia.
  rewrite (lor_high_low _ (byte_of V 0) 8) by lia.
  unfold byte_of in *. change (8 * 0) with 0. change (8 * 1) with 8.
  change (8 * 2) with 16. change (2 ^ 0) with 1. rewrite Z.div_1_r.
  clear H0 H1 H2 Hq. Z.div_mod_to_equations. lia.
Qed.

Lemma byte_of_digits (V : Z) :
  V mod 2 ^ 32 =
  byte_of V 3 * 2 ^ 24 + byte_of V 2 * 2 ^ 16 + byte_of V 1 * 2 ^ 8 + byte_of V 0.
Proof.
  unfold byte_of. change (8 * 0) with 0. change (8 * 1) with 8.
  change (8 * 2) with 16. change (8 * 3) with 24. change (2 ^ 0) with 1.
  rewrite Z.div_1_r. Z.div_mod_to_equations. lia.
Qed.

Lemma setMemWord_bytes (A V : Z) (currentMem : memory_t) :
  Z.abs A <= 2 ^ 53 - 3 →
  - 2 ^ 31 <= V < 2 ^ 31 →
  setMemWord A V currentMem =
  <[Fin (A + 3) := Fin (byte_of V 0)]> (<[Fin (A + 2) := Fin (byte_of V 1)]>
    (<[Fin (A + 1) := Fin (byte_of V 2)]> (<[Fin A := Fin (byte_of V 3)]> currentMem))).
Proof.
  intros HA HV. unfold setMemWord.
  rewrite !js_add_exact by lia.
  rewrite (store_byte V 24 HV), (store_byte V 16 HV), (store_byte V 8 HV) by lia.
  rewrite (store_low_byte V HV). reflexivity.
Qed.

(** C2. A word written by [setMemWord] is read back by [getMemWord], and the
    four bytes at [A .. A+3] are its big-endian decomposition, most
    significant byte first; a byte that was never written reads as 0. *)
Theorem setMemWord_getMemWord (A V : Z) (currentMem : memory_t) :
  Z.abs A <= 2 ^ 53 - 3 →
  - 2 ^ 31 <= V < 2 ^ 31 →
  let nextMem := setMemWord A V currentMem in
  getMemWord A nextMem = Fin V
  ∧ getMemByte A nextMem = Fin (byte_of V 3)
  ∧ getMemByte (js_add A 1) nextMem = Fin (byte_of V 2)
  ∧ getMemByte (js_add A 2) nextMem = Fin (byte_of V 1)
  ∧ getMemByte (js_add A 3) nextMem = Fin (byte_of V 0)
  ∧ V mod 2 ^ 32 =
      byte_of V 3 * 2 ^ 24 + byte_of V 2 * 2 ^ 16 + byte_of V 1 * 2 ^ 8 + byte_of V 0
  ∧ (∀ a : num, currentMem !! a = None → getMemByte a currentMem = Fin 0).
Proof.
  intros HA HV nextMem.
  assert (Hb : load nextMem A = Fin (byte_of V 3)
             ∧ load nextMem (Fin (A + 1)) = Fin (byte_of V 2)
             ∧ load nextMem (Fin (A + 2)) = Fin (byte_of V 1)
             ∧ load nextMem (Fin (A + 3)) = Fin (byte_of V 0)).
  { subst nextMem. rewrite (setMemWord_bytes A V currentMem HA HV).
    repeat split.
    - rewrite !load_insert_ne by (intros [=]; lia). apply load_insert_eq.
    - rewrite !load_insert_ne by (intros [=]; lia). apply load_insert_eq.
    - rewrite !load_insert_ne by (intros [=]; lia). apply load_insert_eq.
    - apply load_insert_eq. }
  destruct Hb as (Hb3 & Hb2 & Hb1 & Hb0).
  unfold getMemWord, getMemByte. rewrite !js_add_exact by lia.
  rewrite Hb3, Hb2, Hb1, Hb0.
  repeat split; try reflexivity.
  - by apply compose_bytes.
  - apply byte_of_digits.
  - intros a Ha. by apply load_absent.
Qed.

Lemma setMemWord_getMemWord_witness :
  getMemWord 0x10010000 (setMemWord 0x10010000 (-2) ∅) = Fin (-2)
  ∧ getMemByte 0x10010000 (setMemWord 0x10010000 (-2) ∅) = Fin 255
  ∧ getMemByte 0x10010003 (setMemWord 0x10010000 (-2) ∅) = Fin 254.
Proof.
  pose proof (setMemWord_getMemWord 0x10010000 (-2) ∅ ltac:(lia) ltac:(lia))
    as (H1 & H2 & _ & _ & H3 & _).
  split; [exact H1 | split; [exact H2 | exact H3]].
Defined.

(** Helpers shared by later proofs. *)
Lemma word_read_back (A V : Z) (currentMem : memory_t) :
  Z.abs A <= 2 ^ 53 - 3 → - 2 ^ 31 <= V < 2 ^ 31 →
  getMemWord A (setMemWord A V currentMem) = Fin V.
Proof.
  intros HA HV. rewrite (setMemWord_bytes A V currentMem HA HV).
  unfold getMemWord. rewrite !js_add_exact by lia.
  rewrite (load_insert_ne _ (Fin (A + 3)) (Fin A)) by (intros [=]; lia).
  rewrite (load_insert_ne _ (Fin (A + 2)) (Fin A)) by (intros [=]; lia).
  rewrite (load_insert_ne _ (Fin (A + 1)) (Fin A)) by (intros [=]; lia).
  rewrite (load_insert_ne _ (Fin (A + 3)) (Fin (A + 1))) by (intros [=]; lia).
  rewrite (load_insert_ne _ (Fin (A + 2)) (Fin (A + 1))) by (intros [=]; lia).
  rewrite (load_insert_ne _ (Fin (A + 3)) (Fin (A + 2))) by (intros [=]; lia).
  rewrite !load_insert_eq. by apply compose_bytes.
Qed.

(* ===================================================================== *)
(** ** The shape of one step *)
(* ===================================================================== *)

Lemma strict_eq_Num (a : num) (v : jsval) :
  strict_eq (Num a) v = true → v = Num a.
Proof.
  destruct v as [|b]; simpl; [discriminate|].
  destruct a as [| s | x], b as [| t | y]; simpl; try discriminate.
  - intros H. apply Bool.eqb_prop in H. by subst.
  - intros H. apply Z.eqb_eq in H. by subst.
Qed.

Lemma fetch_pc (st : state) (inst : Inst.t) :
  fetch st = Some inst → pc st = Num (Inst.pc inst).
Proof.
  unfold fetch. intros H. apply find_some in H as [_ H].
  by apply strict_eq_Num.
Qed.

Lemma step_faulted (st : state) : error st ≠ None → step st = st.
Proof. unfold step. by destruct (error st). Qed.

Lemma step_no_instruction (st : state) :
  error st = None → fetch st = None → step st = halt st.
Proof. unfold step. by intros -> ->. Qed.

Lemma step_instruction (st : state) (inst : Inst.t) :
  error st = None → fetch st = Some inst →
  step st =
  match exec (pc st) (regs st) (memory st) (labelMap st) (Inst.args inst)
          (mnemonic_of (Inst.op inst)) with
  | inr l => commit st l
  | inl e => fail st e
  end.
Proof. unfold step. by intros -> ->. Qed.

Lemma commit_output (st : state) (l : locals) :
  output (commit st l) = output st ++ outputAppend l.
Proof. simpl. destruct (outputAppend l); [by rewrite app_nil_r | reflexivity]. Qed.

Lemma halt_stopped (st : state) : isRunning st = false → halt st = st.
Proof. destruct st. simpl. by intros ->. Qed.

Lemma steps_S (n : nat) (st : state) : steps (S n) st = step (steps n st).
Proof. reflexivity. Qed.

(** A machine that has run off the program stays where it is. *)
Lemma steps_halted (st : state) (n : nat) :
  error st = None → fetch st = None → isRunning st = false → steps n st = st.
Proof.
  intros He Hf Hr. induction n as [|n IH]; [reflexivity|].
  rewrite steps_S, IH, step_no_instruction by assumption. by apply halt_stopped.
Qed.

(* ===================================================================== *)
(** ** The default program *)
(* ===================================================================== *)

(** C5. The default Fibonacci program, freshly assembled, executes 145
    instructions: the 145th is the exit syscall, after which no instruction
    is fetched any more, and the console then holds the reference string,
    the comma-and-space separated Fibonacci numbers followed by one
    newline. *)
Theorem fibonacci_program_output :
  let before_exit := steps 144 mounted in
  let final := steps 145 mounted in
  forallb (λ k, bool_decide (is_Some (fetch (steps k mounted)))) (seq 0 145) = true
  ∧ Inst.op <$> fetch before_exit = Some "syscall"
  ∧ regs before_exit !!! ridx 2 = 10
  ∧ pc final = Num 0 ∧ isRunning final = false ∧ error final = None
  ∧ fetch final = None
  ∧ output final = reference_output
  ∧ reference_output =
      codes "Fibonacci Sequence: "
      ++ join_codes (codes ", ") (map (λ n, decimal (fib n)) (seq 0 11))
      ++ codes nl
  ∧ ∀ n, steps n final = final.
Proof.
  intros before_exit final.
  assert (Hfinal : pc final = Num 0 ∧ isRunning final = false
                   ∧ error final = None ∧ fetch final = None
                   ∧ output final = reference_output).
  { subst final. vm_compute. repeat split. }
  destruct Hfinal as (Hpc & Hrun & Herr & Hfetch & Hout).
  split; [by vm_compute|]. split; [by vm_compute|]. split; [by vm_compute|].
  split; [exact Hpc|]. split; [exact Hrun|]. split; [exact Herr|].
  split; [exact Hfetch|]. split; [exact Hout|]. split; [by vm_compute|].
  intros n. by apply steps_halted.
Qed.

(* ===================================================================== *)
(** ** Atomicity of a step *)
(* ===================================================================== *)

(** C4. One call of [step] is all or nothing.  Either the [catch] clause
    runs: the fault records the PC of the instruction, and registers,
    memory, PC and output are those before the call.  Or no fault is
    raised: then either the instruction's register, memory, PC and output
    changes are committed together, or no instruction was executed (the
    machine had faulted before, or no instruction is at the PC) and nothing
    changed. *)
Theorem step_atomic (st : state) :
  (∃ e, error st = None
        ∧ error (step st) = Some (RuntimeError (pc st) e)
        ∧ regs (step st) = regs st ∧ memory (step st) = memory st
        ∧ pc (step st) = pc st ∧ output (step st) = output st)
  ∨ (error (step st) = error st
     ∧ ((∃ inst l,
           error st = None ∧ fetch st = Some inst
           ∧ exec (pc st) (regs st) (memory st) (labelMap st) (Inst.args inst)
               (mnemonic_of (Inst.op inst)) = inr l
           ∧ regs (step st) = nextRegs l ∧ memory (step st) = nextMem l
           ∧ pc (step st) = nextPc l
           ∧ output (step st) = output st ++ outputAppend l)
        ∨ ((error st ≠ None ∨ fetch st = None)
           ∧ regs (step st) = regs st ∧ memory (step st) = memory st
           ∧ pc (step st) = pc st ∧ output (step st) = output st))).
Proof.
  destruct (error st) as [f|] eqn:Herr.
  { right. rewrite step_faulted by congruence.
    split; [done|]. right. repeat split; try done. by left. }
  destruct (fetch st) as [inst|] eqn:Hfetch.
  2:{ right. rewrite step_no_instruction by assumption.
      split; [done|]. right. repeat split; try done. by right. }
  rewrite (step_instruction st inst Herr Hfetch).
  destruct (exec _ _ _ _ _ _) as [e|l] eqn:Hexec.
  - left. exists e. repeat split; done.
  - right. split; [done|]. left. exists inst, l.
    repeat split; try done. apply commit_output.
Qed.

(** A fault can come after a local change: with a label that shadows
    [hasOwnProperty], [jal] has already written the link register into its
    copy of the registers when the lookup of the target throws.  The copy
    is dropped. *)
Example jal_fault_discards_link :
  let st := assemble ("hasOwnProperty:" +:+ nl +:+ "jal main") initial in
  error (step st) = Some (RuntimeError (Num TEXT_START) NotAFunction)
  ∧ regs (step st) = regs st ∧ pc (step st) = pc st.
Proof. vm_compute. repeat split. Qed.

(* ===================================================================== *)
(** ** The print_string service *)
(* ===================================================================== *)

Lemma num_strict_eq_0 (c : num) : num_strict_eq c 0 = true ↔ c = Fin 0.
Proof.
  destruct c as [| s | z]; simpl; try (split; [discriminate | congruence]).
  rewrite Z.eqb_eq. split; congruence.
Qed.

Lemma addr_plus_S (addr : num) (k : nat) :
  addr_plus (js_add addr 1) k = addr_plus addr (S k).
Proof.
  unfold addr_plus. induction k as [|k IH]; [reflexivity|].
  simpl in *. by rewrite IH.
Qed.

Lemma print_string_loop_spec (currentMem : memory_t) (fuel : nat) :
  ∀ (addr : num) (str : list Z),
  ∃ n : nat,
    (n ≤ fuel)%nat
    ∧ print_string_loop fuel currentMem addr (getMemByte addr currentMem) str =
        str ++ map (λ k, ToUint16 (getMemByte (addr_plus addr k) currentMem)) (seq 0 n)
    ∧ (∀ k, (k < n)%nat → getMemByte (addr_plus addr k) currentMem ≠ Fin 0)
    ∧ ((n < fuel)%nat → getMemByte (addr_plus addr n) currentMem = Fin 0).
Proof.
  induction fuel as [|fuel IH]; intros addr str.
  - exists 0%nat. simpl. rewrite app_nil_r. repeat split; [lia | lia | lia].
  - simpl. destruct (num_strict_eq (getMemByte addr currentMem) 0) eqn:Hc.
    + exists 0%nat. simpl. rewrite app_nil_r. repeat split; try lia.
      intros _. by apply num_strict_eq_0.
    + destruct (IH (js_add addr 1) (str ++ [ToUint16 (getMemByte addr currentMem)]))
        as (n & Hn & Heq & Hnz & Hz).
      exists (S n). split; [lia|]. split; [|split].
      * rewrite Heq, <- app_assoc. f_equal. simpl. f_equal.
        rewrite <- seq_shift, map_map. apply map_ext. intros k.
        by rewrite addr_plus_S.
      * intros [|k] Hk.
        -- simpl. intros H0. apply num_strict_eq_0 in H0. congruence.
        -- rewrite <- addr_plus_S. apply Hnz. lia.
      * intros Hlt. rewrite <- addr_plus_S. apply Hz. lia.
Qed.

(** C7. The print_string service (code 4 in [$v0]) never faults and appends
    at most 1000 characters: the bytes read from [$a0] upwards, up to and
    excluding the first zero byte, or the first 1000 of them when no zero
    byte comes earlier.  Registers and memory are left as they were. *)
Theorem print_string_bounded (st : state) (inst : Inst.t) :
  error st = None →
  fetch st = Some inst →
  mnemonic_of (Inst.op inst) = SYSCALL →
  regs st !!! ridx 2 = 4 →
  let a0 := Fin (regs st !!! ridx 4) in
  ∃ n : nat,
    (n ≤ 1000)%nat
    ∧ output (step st) =
        output st
        ++ map (λ k, ToUint16 (getMemByte (addr_plus a0 k) (memory st))) (seq 0 n)
    ∧ (∀ k, (k < n)%nat → getMemByte (addr_plus a0 k) (memory st) ≠ Fin 0)
    ∧ ((n < 1000)%nat → getMemByte (addr_plus a0 n) (memory st) = Fin 0)
    ∧ error (step st) = None
    ∧ regs (step st) = regs st ∧ memory (step st) = memory st.
Proof.
  intros Herr Hfetch Hop Hv0 a0.
  rewrite (step_instruction st inst Herr Hfetch), Hop.
  assert (Hexec :
    exec (pc st) (regs st) (memory st) (labelMap st) (Inst.args inst) SYSCALL =
    inr (mkLocals (Num (js_add (ToNumber (pc st)) 4)) (regs st) (memory st)
           (print_string (memory st) a0) false)).
  { unfold exec. rewrite Hv0. reflexivity. }
  rewrite Hexec.
  destruct (print_string_loop_spec (memory st) 1000 a0 []) as (n & Hn & Heq & Hnz & Hz).
  exists n. split; [exact Hn|]. split.
  - rewrite commit_output. simpl outputAppend. unfold print_string. by rewrite Heq.
  - repeat split; try done.
Qed.

Lemma print_string_bounded_witness :
  let st := steps 5 mounted in
  let a0 := Fin (regs st !!! ridx 4) in
  ∃ n : nat,
    (n ≤ 1000)%nat
    ∧ output (step st) =
        output st
        ++ map (λ k, ToUint16 (getMemByte (addr_plus a0 k) (memory st))) (seq 0 n).
Proof.
  intros st a0.
  destruct (print_string_bounded st
              (Inst.mk 4194324 "syscall" [] "syscall" 19)
              ltac:(vm_compute; reflexivity) ltac:(vm_compute; reflexivity)
              ltac:(vm_compute; reflexivity) ltac:(vm_compute; reflexivity))
    as (n & Hn & Hout & _).
  exists n. split; [exact Hn | exact Hout].
Defined.

(* ===================================================================== *)
(** ** Additions and subtractions *)
(* ===================================================================== *)

Lemma commit_error (st : state) (l : locals) : error (commit st l) = error st.
Proof. reflexivity. Qed.

Lemma setReg_lookup (r : vec Z 32) (d : fin 32) (v : num) :
  setReg r (PIdx d) v !!! d = ToInt32 v.
Proof. simpl. apply vlookup_insert. Qed.

Lemma assign_eq pc0 (r : vec Z 32) (mem : memory_t) (args : list string) (v : num) :
  assign pc0 r mem args v =
  inr (mkLocals (Num (js_add (ToNumber pc0) 4))
         (setReg r (parseReg (arg args 0)) v) mem [] false).
Proof. reflexivity. Qed.

Lemma js_sub_exact (x y : Z) :
  Z.abs (x - y) <= 2 ^ 53 → js_sub (Fin x) (Fin y) = Fin (x - y).
Proof.
  intros H. unfold js_sub. simpl js_neg. rewrite js_add_exact by lia.
  reflexivity.
Qed.

(** C6. [add], [addu], [sub], [subu], [addi] and [addiu] never fault, and
    the destination register receives the exact result wrapped into the
    signed 32-bit range, that is, the result modulo 2^32.  (At the witness:
    0x7FFFFFFF + 1 is stored as the bit pattern 0x80000000.) *)
Theorem add_sub_wraps (st : state) (inst : Inst.t) :
  error st = None →
  fetch st = Some inst →
  let m := mnemonic_of (Inst.op inst) in
  is_add_sub m = true →
  error (step st) = None
  ∧ ∀ (d : fin 32) (x y : Z),
      parseReg (arg (Inst.args inst) 0) = PIdx d →
      operand (regs st) (Inst.args inst) 1 = Num (Fin x) →
      second_operand m (regs st) (Inst.args inst) = Fin y →
      Z.abs (add_sub_result m x y) <= 2 ^ 53 →
      regs (step st) !!! d = wrap32 (add_sub_result m x y)
      ∧ - 2 ^ 31 <= regs (step st) !!! d < 2 ^ 31
      ∧ (regs (step st) !!! d) mod 2 ^ 32 = add_sub_result m x y mod 2 ^ 32.
Proof.
  intros Herr Hfetch m Hm.
  rewrite (step_instruction st inst Herr Hfetch). fold m.
  assert (Hexec : ∃ v,
    exec (pc st) (regs st) (memory st) (labelMap st) (Inst.args inst) m =
      assign (pc st) (regs st) (memory st) (Inst.args inst) v
    ∧ ∀ x y, operand (regs st) (Inst.args inst) 1 = Num (Fin x) →
             second_operand m (regs st) (Inst.args inst) = Fin y →
             Z.abs (add_sub_result m x y) <= 2 ^ 53 →
             v = Fin (add_sub_result m x y)).
  { destruct m; try discriminate Hm; simpl; eexists; (split; [reflexivity|]);
      intros x y -> -> Hxy; simpl in *;
      first [by apply to_double_exact | by apply js_sub_exact]. }
  destruct Hexec as (v & -> & Hv). rewrite assign_eq.
  split; [exact Herr|].
  intros d x y Hd Hx Hy Hxy.
  assert (Hreg : regs (commit st (mkLocals (Num (js_add (ToNumber (pc st)) 4))
                   (setReg (regs st) (parseReg (arg (Inst.args inst) 0)) v)
                   (memory st) [] false)) !!! d
                 = wrap32 (add_sub_result m x y)).
  { simpl regs. rewrite Hd, (Hv x y Hx Hy Hxy). apply setReg_lookup. }
  rewrite Hreg.
  split; [reflexivity|]. split; [apply wrap32_range | apply wrap32_mod].
Qed.

Lemma add_sub_wraps_witness :
  let st := steps 1 (assemble ("li $t0, 0x7FFFFFFF" +:+ nl +:+ "addi $t1, $t0, 1") initial) in
  error (step st) = None
  ∧ regs (step st) !!! ridx 9 = wrap32 (0x7FFFFFFF + 1)
  ∧ wrap32 (0x7FFFFFFF + 1) = - 2 ^ 31
  ∧ (regs (step st) !!! ridx 9) mod 2 ^ 32 = 0x80000000.
Proof.
  intros st.
  destruct (add_sub_wraps st
              (Inst.mk 4194308 "addi" ["$t1"; "$t0"; "1"] "addi $t1, $t0, 1" 2)
              ltac:(vm_compute; reflexivity) ltac:(vm_compute; reflexivity)
              ltac:(vm_compute; reflexivity)) as [Herr Hres].
  destruct (Hres (ridx 9) 0x7FFFFFFF 1
              ltac:(vm_compute; reflexivity) ltac:(vm_compute; reflexivity)
              ltac:(vm_compute; reflexivity) ltac:(vm_compute; discriminate))
    as (Hval & _ & Hmod).
  split; [exact Herr|]. split; [exact Hval|].
  split; [vm_compute; reflexivity | exact Hmod].
Defined.

(* ===================================================================== *)
(** ** The zero register *)
(* ===================================================================== *)

Lemma getRegVal_zero (r : vec Z 32) : getRegVal r (PIdx 0%fin) = Num 0.
Proof. reflexivity. Qed.

Lemma getRegVal_agree (r1 r2 : vec Z 32) (p : parsed) :
  agree_but_zero r1 r2 → getRegVal r1 p = getRegVal r2 p.
Proof.
  intros H. destruct p as [i| | |]; simpl; try reflexivity.
  destruct (decide (i = 0%fin)); [reflexivity|]. by rewrite H.
Qed.

Lemma vinsert_agree (r1 r2 : vec Z 32) (i : fin 32) (z : Z) :
  agree_but_zero r1 r2 → agree_but_zero (vinsert i z r1) (vinsert i z r2).
Proof.
  intros H j Hj. destruct (decide (i = j)) as [->|Hne].
  - by rewrite !vlookup_insert.
  - rewrite !vlookup_insert_ne by done. by apply H.
Qed.

Lemma setReg_agree (r1 r2 : vec Z 32) (k : parsed) (v : num) :
  agree_but_zero r1 r2 → agree_but_zero (setReg r1 k v) (setReg r2 k v).
Proof. intros H. destruct k; simpl; try done. by apply vinsert_agree. Qed.

Lemma locals_but_zero_intro (r1 r2 : vec Z 32) p m o s :
  agree_but_zero r1 r2 →
  locals_but_zero (mkLocals p r1 m o s) (mkLocals p r2 m o s).
Proof. intros H. repeat split; done. Qed.

(** The outcome of an instruction does not depend on slot 0. *)
Lemma exec_agree (pc0 : jsval) (r1 r2 : vec Z 32) (mem : memory_t)
    (lm : gmap string num) (args : list string) (m : mnemonic) :
  agree_but_zero r1 r2 →
  match exec pc0 r1 mem lm args m, exec pc0 r2 mem lm args m with
  | inl e1, inl e2 => e1 = e2
  | inr l1, inr l2 => locals_but_zero l1 l2
  | _, _ => False
  end.
Proof.
  intros H.
  assert (H2 : r1 !!! ridx 2 = r2 !!! ridx 2) by (by apply H).
  assert (H4 : r1 !!! ridx 4 = r2 !!! ridx 4) by (by apply H).
  destruct m; unfold exec, assign, address, operand;
    rewrite ?(getRegVal_agree r1 r2 _ H), ?H2, ?H4;
    repeat match goal with
      | |- context [destructure ?p] =>
          destruct (destructure p) as [?|[? ?]]; cbn [mbind mret M_bind M_ret throw]
      | |- context [getImmOrLabel ?l ?s] =>
          destruct (getImmOrLabel l s); cbn [mbind mret M_bind M_ret throw]
      | |- context [strict_eq ?a ?b] =>
          destruct (strict_eq a b); cbn [mbind mret M_bind M_ret throw negb]
      end;
    rewrite ?(getRegVal_agree r1 r2 _ H);
    repeat match goal with
      | |- context [truthy ?a] => destruct (truthy a)
      | |- context [Z.eqb ?a ?b] => destruct (Z.eqb a b)
      end;
    cbn [mbind mret M_bind M_ret throw];
    try reflexivity;
    apply locals_but_zero_intro;
    auto using setReg_agree, vinsert_agree.
Qed.

Lemma step_same_but_zero (s1 s2 : state) :
  same_but_zero s1 s2 → same_but_zero (step s1) (step s2).
Proof.
  intros (Hr & Hpc & Hmem & Hout & Hrun & Herr & Hins & Hlm & Hsm).
  assert (Hfetch : fetch s1 = fetch s2) by (unfold fetch; by rewrite Hpc, Hins).
  destruct (error s1) as [f|] eqn:He1.
  { rewrite !step_faulted by congruence. repeat split; first [assumption | congruence]. }
  destruct (fetch s1) as [inst|] eqn:Hf1.
  2:{ rewrite !step_no_instruction by congruence.
      repeat split; simpl; first [assumption | congruence]. }
  rewrite (step_instruction s1 inst), (step_instruction s2 inst) by congruence.
  pose proof (exec_agree (pc s1) (regs s1) (regs s2) (memory s1) (labelMap s1)
                (Inst.args inst) (mnemonic_of (Inst.op inst)) Hr) as Hex.
  rewrite <- Hpc, <- Hmem, <- Hlm.
  destruct (exec _ (regs s1) _ _ _ _) as [e1|l1], (exec _ (regs s2) _ _ _ _) as [e2|l2];
    try contradiction.
  - subst e2. repeat split; simpl; first [assumption | congruence].
  - destruct Hex as (Hnr & Hnp & Hnm & Hno & Hns).
    repeat split; simpl; rewrite ?Hno, ?Hns, ?Hout, ?Hrun;
      first [assumption | congruence].
Qed.

(** C1 (as amended). After any number of steps, [$zero] read through
    [getRegVal] is 0, and slot 0 of the register array influences nothing
    else: two machines that differ at most in that slot still do so after
    the same number of steps (same other registers, PC, memory, output and
    error).  The special case is on the read path; the write paths store
    into slot 0 like into any other. *)
Theorem zero_register_reads_zero (s1 s2 : state) (n : nat) :
  same_but_zero s1 s2 →
  getRegVal (regs (steps n s1)) (parseReg (Some "$zero")) = Num 0
  ∧ same_but_zero (steps n s1) (steps n s2).
Proof.
  intros H. split; [reflexivity|].
  induction n as [|n IH]; [exact H|].
  rewrite !steps_S. by apply step_same_but_zero.
Qed.

(** C1, as stated, fails: an instruction whose destination is [$zero]
    stores its result in slot 0, which then holds 5. *)
Lemma zero_register_written :
  let st := step (assemble "addi $zero, $zero, 5" initial) in
  error st = None ∧ regs st !!! 0%fin = 5.
Proof. vm_compute. split; reflexivity. Qed.

Lemma zero_register_reads_zero_witness :
  getRegVal (regs (steps 20 mounted)) (parseReg (Some "$zero")) = Num 0
  ∧ same_but_zero (steps 20 mounted) (steps 20 (with_slot0 7 mounted)).
Proof.
  apply (zero_register_reads_zero mounted (with_slot0 7 mounted) 20).
  generalize mounted. intros st.
  split; [|repeat split; reflexivity].
  intros i Hi. unfold with_slot0. cbn [regs].
  rewrite vlookup_insert_ne; [reflexivity | congruence].
Defined.

(* ===================================================================== *)
(** ** Unresolved branch and jump targets *)
(* ===================================================================== *)

Lemma strict_eq_NaN (v : jsval) : strict_eq v (Num NaN) = false.
Proof. by destruct v as [|[]]. Qed.

Lemma fetch_NaN (st : state) : pc st = Num NaN → fetch st = None.
Proof.
  unfold fetch. intros ->. induction (instructions st) as [|i l IH]; [reflexivity|].
  cbn [find]. by rewrite strict_eq_NaN.
Qed.

Lemma getImmOrLabel_unresolved (lm : gmap string num) (t : option string) :
  lm !! "hasOwnProperty" = None →
  lm !! ToString t = None →
  parseInt (ToString t) = NaN →
  getImmOrLabel lm t = inr NaN.
Proof. unfold getImmOrLabel. by intros -> -> ->. Qed.

Lemma assemble_pc (src : string) (st : state) :
  pc (assemble src st) = Num TEXT_START.
Proof. unfold assemble. by destruct (assemble_loop _ _ _). Qed.

(** C3 (as amended). A taken [beq]/[bne], a [j] or a [jal] whose target is
    neither a label nor an integer literal raises no fault: the step is
    committed with NaN as the new PC.  No instruction has that address, so
    every later step only clears [isRunning] and changes nothing else,
    until [reset] or [assemble] puts the PC back to [TEXT_START].  (No
    label shadows [hasOwnProperty] here; with one, the lookup faults.) *)
Theorem unresolved_target_halts (st : state) (inst : Inst.t) (n : nat) :
  error st = None →
  fetch st = Some inst →
  let m := mnemonic_of (Inst.op inst) in
  let target := target_operand m (Inst.args inst) in
  taken m (regs st) (Inst.args inst) = true →
  labelMap st !! "hasOwnProperty" = None →
  labelMap st !! ToString target = None →
  parseInt (ToString target) = NaN →
  error (step st) = None
  ∧ pc (step st) = Num NaN
  ∧ fetch (step st) = None
  ∧ steps (S n) (step st) = halt (step st)
  ∧ pc (reset (step st)) = Num TEXT_START
  ∧ ∀ src, pc (assemble src (step st)) = Num TEXT_START.
Proof.
  intros Herr Hfetch m target Htaken Hown Hlabel Hparse.
  pose proof (getImmOrLabel_unresolved _ _ Hown Hlabel Hparse) as Hres.
  assert (Hstep : error (step st) = None ∧ pc (step st) = Num NaN).
  { rewrite (step_instruction st inst Herr Hfetch). fold m.
    subst target. destruct m; try discriminate Htaken; simpl in *;
      rewrite ?Htaken, Hres; simpl; by split. }
  destruct Hstep as [Herr' Hpc'].
  pose proof (fetch_NaN _ Hpc') as Hfetch'.
  repeat split; try done.
  - induction n as [|n IH].
    + by apply step_no_instruction.
    + rewrite steps_S, IH. rewrite step_no_instruction; [by destruct (step st)|done|done].
  - intros src. apply assemble_pc.
Qed.

Lemma unresolved_target_halts_witness :
  let st := assemble "j nowhere" initial in
  error (step st) = None ∧ pc (step st) = Num NaN
  ∧ steps 3 (step st) = halt (step st).
Proof.
  intros st.
  destruct (unresolved_target_halts st (Inst.mk 4194304 "j" ["nowhere"] "j nowhere" 1) 2
              ltac:(vm_compute; reflexivity) ltac:(vm_compute; reflexivity)
              ltac:(vm_compute; reflexivity) ltac:(vm_compute; reflexivity)
              ltac:(vm_compute; reflexivity) ltac:(vm_compute; reflexivity))
    as (H1 & H2 & _ & H3 & _).
  split; [exact H1 | split; [exact H2 | exact H3]].
Defined.

(** C3, as stated, fails: the jump to a label that does not exist raises
    no fault. *)
Lemma unresolved_jump_no_fault :
  let st := assemble "j nowhere" initial in
  (Inst.op <$> fetch st, Inst.args <$> fetch st) = (Some "j", Some ["nowhere"])
  ∧ labelMap st !! "nowhere" = None
  ∧ parseInt "nowhere" = NaN
  ∧ error (step st) = None.
Proof. vm_compute. repeat split. Qed.

(* ===================================================================== *)
(** ** The assembler *)
(* ===================================================================== *)

(** Even integers below 2^55 that are multiples of 2^e are doubles. *)
Lemma to_double_multiple (a e : Z) :
  1 <= e <= 2 → 2 ^ (52 + e) <= a < 2 ^ (53 + e) → a mod 2 ^ e = 0 →
  to_double a = Fin a.
Proof.
  intros He Ha Hmod.
  assert (Hpos : 0 < a).
  { assert (0 < 2 ^ (52 + e)) by (apply Z.pow_pos_nonneg; lia). lia. }
  unfold to_double. rewrite Z.abs_eq by lia.
  destruct (Z.leb_spec a (2 ^ 53)) as [|Hgt]; [reflexivity|].
  assert (Hlog : Z.log2 a = 52 + e).
  { apply Z.log2_unique; [lia|].
    replace (Z.succ (52 + e)) with (53 + e) by lia. exact Ha. }
  cbv zeta. rewrite Hlog. replace (52 + e - 52) with e by lia.
  rewrite Z.land_ones, Hmod, Z.shiftr_div_pow2, !Z.shiftl_mul_pow2 by lia.
  assert (Hhalf : 0 < 1 * 2 ^ (e - 1)).
  { assert (0 < 2 ^ (e - 1)) by (apply Z.pow_pos_nonneg; lia). lia. }
  destruct (Z.ltb_spec (1 * 2 ^ (e - 1)) 0) as [|_]; [lia|].
  destruct (Z.eqb_spec 0 (1 * 2 ^ (e - 1))) as [|_]; [lia|]. simpl orb.
  assert (Hexact : a / 2 ^ e * 2 ^ e = a).
  { pose proof (Z.div_mod a (2 ^ e)) as Hdm. rewrite Hmod in Hdm.
    assert (0 < 2 ^ e) by (apply Z.pow_pos_nonneg; lia). lia. }
  cbv iota. rewrite Hexact.
  assert (Hsmall : a < 2 ^ 1024).
  { apply Z.lt_le_trans with (2 ^ (53 + e)); [lia|].
    apply Z.pow_le_mono_r; lia. }
  destruct (Z.leb_spec (2 ^ 1024) a) as [|_]; [lia|].
  rewrite Z.sgn_pos by lia. f_equal. lia.
Qed.

(** [textPtr += 4] keeps the text pointer a multiple of 4. *)
Lemma text_address_next (p : num) : text_address p → text_address (js_add p 4).
Proof.
  intros (t & -> & Ht & Hmod). cbn [js_add].
  assert (Hmod' : (t + 4) mod 4 = 0).
  { clear -Hmod. Z.div_mod_to_equations. lia. }
  destruct (Z.le_gt_cases (t + 4) (2 ^ 53)) as [Hle|Hgt].
  { exists (t + 4). rewrite to_double_exact by lia.
    split; [reflexivity | split; [lia | exact Hmod']]. }
  destruct (Z.lt_ge_cases (t + 4) (2 ^ 54)) as [H54|H54].
  { exists (t + 4). rewrite (to_double_multiple (t + 4) 1).
    - split; [reflexivity | split; [lia | exact Hmod']].
    - lia.
    - change (52 + 1) with 53. change (53 + 1) with 54. lia.
    - change (2 ^ 1) with 2. clear -Hmod'. Z.div_mod_to_equations. lia. }
  destruct (Z.lt_ge_cases (t + 4) (2 ^ 55)) as [H55|H55].
  { exists (t + 4). rewrite (to_double_multiple (t + 4) 2).
    - split; [reflexivity | split; [lia | exact Hmod']].
    - lia.
    - change (52 + 2) with 54. change (53 + 2) with 55. lia.
    - exact Hmod'. }
  assert (Hcases : t = 2 ^ 55 - 4 ∨ t = 2 ^ 55).
  { clear -Ht Hmod H55. Z.div_mod_to_equations. lia. }
  exists (2 ^ 55).
  destruct Hcases as [-> | ->]; vm_compute; repeat split; done.
Qed.

Lemma text_address_start : text_address TEXT_START.
Proof. exists TEXT_START. vm_compute. repeat split; done. Qed.

Lemma asm0_ok : asm_ok asm0.
Proof. split; [apply text_address_start | constructor]. Qed.

Lemma assemble_data_spec (line : string) (a : asm) :
  ∃ a', assemble_data line a = inr a'
        ∧ textPtr a' = textPtr a ∧ newInstructions a' = newInstructions a.
Proof.
  unfold assemble_data.
  repeat case_match; simplify_eq; eexists; (split; [reflexivity|]); done.
Qed.

Lemma assemble_text_spec (i : Z) (line : string) (a : asm) :
  ∃ a', assemble_text i line a = inr a' ∧ (asm_ok a → asm_ok a').
Proof.
  unfold assemble_text. destruct (match_words _) as [|op args].
  - by exists a.
  - eexists. split; [reflexivity|]. intros [Hptr Hins]. split; simpl.
    + by apply text_address_next.
    + apply Forall_app. split; [done|]. by repeat constructor.
Qed.

Lemma assemble_line_spec (i : Z) (raw : string) (a : asm) :
  ∃ a', assemble_line i raw a = inr a' ∧ (asm_ok a → asm_ok a').
Proof.
  unfold assemble_line. cbv zeta.
  set (line0 := if indexOf "#" (trim raw) =? -1 then _ else _). clearbody line0.
  destruct (String.eqb line0 ""); [by exists a|].
  destruct (String.eqb line0 ".data"); [eexists; split; [reflexivity | done]|].
  destruct (String.eqb line0 ".text"); [eexists; split; [reflexivity | done]|].
  set (p := if includes ":" line0 then _ else _).
  assert (Hp : asm_ok a → asm_ok p.2) by (subst p; by destruct (includes _ _)).
  destruct p as [line2 a2]. cbn [snd] in Hp.
  destruct (String.eqb line2 ""); [by exists a2|].
  destruct (currentSection a2).
  - destruct (assemble_data_spec line2 a2) as (a' & -> & Hpt & Hi).
    exists a'. split; [reflexivity|]. intros H. unfold asm_ok.
    rewrite Hpt, Hi. by apply Hp.
  - destruct (assemble_text_spec i line2 a2) as (a' & -> & H').
    exists a'. split; [reflexivity | auto].
Qed.

Lemma assemble_loop_spec (lines : list string) :
  ∀ (i : Z) (a : asm),
  ∃ a', assemble_loop i lines a = inr a' ∧ (asm_ok a → asm_ok a').
Proof.
  induction lines as [|raw rest IH]; intros i a.
  - by exists a.
  - simpl. destruct (assemble_line_spec i raw a) as (a1 & -> & H1).
    destruct (IH (i + 1) a1) as (a2 & H2 & H3).
    exists a2. split; [exact H2 | auto].
Qed.

(** C8. Assembly is all or nothing, and it is always all: no statement of
    the [try] block of [assemble] can throw, so the [catch] clause that
    reports an assembler error is never entered (the failure case of the
    claim does not arise).  Every call installs the program, the labels,
    the source map and the data segment parsed from the source alone, and
    resets registers, PC, output, run flag and error. *)
Theorem assemble_all_or_nothing (sourceCode : string) (st : state) :
  (∃ a : asm,
     assemble_loop 0 (split "010" sourceCode) asm0 = inr a
     ∧ assemble sourceCode st =
         {| regs := newRegs; pc := Num TEXT_START;
            memory := newDataSegment a; output := []; isRunning := false;
            error := None; instructions := newInstructions a;
            labelMap := newLabelMap a; sourceMap := newSourceMap a |})
  ∧ error (assemble sourceCode st) = None
  ∧ (∀ f, error (assemble sourceCode st) = Some f → assemble sourceCode st = st).
Proof.
  destruct (assemble_loop_spec (split "010" sourceCode) 0 asm0) as (a & Ha & _).
  assert (Hasm : assemble sourceCode st =
         {| regs := newRegs; pc := Num TEXT_START;
            memory := newDataSegment a; output := []; isRunning := false;
            error := None; instructions := newInstructions a;
            labelMap := newLabelMap a; sourceMap := newSourceMap a |}).
  { unfold assemble. by rewrite Ha. }
  split; [by exists a|]. rewrite Hasm. split; [reflexivity | discriminate].
Qed.

(** Every instruction address of an assembled program is a multiple of 4. *)
Lemma assemble_addresses (sourceCode : string) (st : state) :
  Forall (λ inst, text_address (Inst.pc inst)) (instructions (assemble sourceCode st)).
Proof.
  destruct (assemble_loop_spec (split "010" sourceCode) 0 asm0) as (a & Ha & Hok).
  unfold assemble. rewrite Ha. simpl. by apply Hok, asm0_ok.
Qed.

(* ===================================================================== *)
(** ** Alignment of the program counter *)
(* ===================================================================== *)

Lemma exec_nextPc (pc0 : jsval) (r : vec Z 32) (mem : memory_t)
    (lm : gmap string num) (args : list string) (m : mnemonic) :
  match exec pc0 r mem lm args m with
  | inl _ => True
  | inr l =>
      nextPc l = Num (js_add (ToNumber pc0) 4)
      ∨ nextPc l = Num 0
      ∨ transfer_target m r lm args = Some (nextPc l)
  end.
Proof.
  destruct m; unfold exec, assign, address, transfer_target, target_operand;
    repeat match goal with
      | |- context [destructure ?p] => destruct (destructure p) as [?|[? ?]]; simpl
      | |- context [getImmOrLabel ?l ?s] => destruct (getImmOrLabel l s); simpl
      | |- context [strict_eq ?a ?b] => destruct (strict_eq a b); simpl
      | |- context [Z.eqb ?a ?b] => destruct (Z.eqb a b); simpl
      end;
    simpl; auto.
Qed.

(** C9 (as amended). While an assembled program is loaded, an instruction
    is only ever executed at a PC that is a multiple of 4, and after the
    step the PC is again a multiple of 4 (PC + 4 by default, 0 after the
    exit syscall, unchanged on a fault) or else it is the value a control
    transfer assigned: the resolved target of [beq], [bne], [j], [jal] or
    the register of [jr], taken as it is, without an alignment check. *)
Theorem pc_alignment (sourceCode : string) (st0 st : state) (inst : Inst.t) :
  instructions st = instructions (assemble sourceCode st0) →
  error st = None →
  fetch st = Some inst →
  let m := mnemonic_of (Inst.op inst) in
  aligned (pc st)
  ∧ (aligned (pc (step st))
     ∨ transfer_target m (regs st) (labelMap st) (Inst.args inst) = Some (pc (step st))).
Proof.
  intros Hins Herr Hfetch m.
  assert (Haddr : text_address (Inst.pc inst)).
  { pose proof (assemble_addresses sourceCode st0) as Hall.
    rewrite <- Hins in Hall. rewrite Forall_forall in Hall. apply Hall.
    unfold fetch in Hfetch. apply find_some in Hfetch as [Hin _].
    by apply list_elem_of_In. }
  pose proof (fetch_pc st inst Hfetch) as Hpc.
  assert (Hal : aligned (pc st)).
  { destruct Haddr as (t & Ht & _ & Hmod). exists t. by rewrite Hpc, Ht. }
  split; [exact Hal|].
  rewrite (step_instruction st inst Herr Hfetch). fold m.
  pose proof (exec_nextPc (pc st) (regs st) (memory st) (labelMap st)
                (Inst.args inst) m) as Hnext.
  destruct (exec _ _ _ _ _ _) as [e|l]; simpl.
  - by left.
  - destruct Hnext as [-> | [-> | Ht]].
    + left. rewrite Hpc. simpl.
      destruct (text_address_next _ Haddr) as (w & Hw & _ & Hmod).
      exists w. simpl in Hw. by rewrite Hw.
    + left. by exists 0.
    + by right.
Qed.

Lemma pc_alignment_witness :
  aligned (pc mounted)
  ∧ (aligned (pc (step mounted))
     ∨ transfer_target (mnemonic_of "addi") (regs mounted) (labelMap mounted)
         ["$t0"; "$zero"; "10"] = Some (pc (step mounted))).
Proof.
  exact (pc_alignment DEFAULT_CODE initial mounted
           (Inst.mk 4194304 "addi" ["$t0"; "$zero"; "10"] "addi $t0, $zero, 10" 12)
           ltac:(vm_compute; reflexivity) ltac:(vm_compute; reflexivity)
           ltac:(vm_compute; reflexivity)).
Defined.

(** C9, as stated, fails: a jump to the integer literal 6 leaves 6 in the
    PC, with the program still loaded. *)
Lemma jump_to_unaligned_target :
  let st := step (assemble "j 6" initial) in
  instructions st ≠ [] ∧ error st = None ∧ pc st = Num 6 ∧ 6 mod 4 ≠ 0.
Proof. vm_compute. repeat split; discriminate. Qed.

(* ===================================================================== *)
(** ** Unrecognised destination registers *)
(* ===================================================================== *)

Lemma setReg_not_index (r : vec Z 32) (k : parsed) (v : num) :
  (∀ i, k ≠ PIdx i) → setReg r k v = r.
Proof. intros H. destruct k as [i| | |]; [by destruct (H i) | done..]. Qed.

Lemma getImmOrLabel_throws (lm : gmap string num) (t : option string) (e : exn) :
  getImmOrLabel lm t = inl e → is_Some (lm !! "hasOwnProperty") ∧ e = NotAFunction.
Proof.
  unfold getImmOrLabel. destruct (lm !! "hasOwnProperty") as [v|].
  - intros [= <-]. split; [by exists v | done].
  - by destruct (lm !! ToString t).
Qed.

Lemma destructure_throws (p : parsed) (e : exn) :
  destructure p = inl e → p = PUndef ∧ e = NotDestructurable.
Proof. destruct p; simpl; intros [= <-] || intros [=]; done. Qed.

(** What a register-writing instruction does when its destination is no
    index: the registers are kept, and a throw can only come from the label
    lookup of [la] or from the address operand of [lw]/[lb]. *)
Lemma exec_unknown_destination (pc0 : jsval) (r : vec Z 32) (mem : memory_t)
    (lm : gmap string num) (args : list string) (m : mnemonic) :
  writes_destination m = true →
  (∀ i, parseReg (arg args 0) ≠ PIdx i) →
  match exec pc0 r mem lm args m with
  | inr l => nextRegs l = r
  | inl e =>
      ((m = LW ∨ m = LB) ∧ parseReg (arg args 1) = PUndef ∧ e = NotDestructurable)
      ∨ (m = LA ∧ is_Some (lm !! "hasOwnProperty") ∧ e = NotAFunction)
  end.
Proof.
  intros Hm Hd.
  destruct m; try discriminate Hm; unfold exec, address; rewrite ?assign_eq;
    try (cbn [nextRegs]; by apply setReg_not_index).
  - destruct (getImmOrLabel lm (arg args 1)) as [e|v] eqn:Hl;
      cbn [mbind mret M_bind M_ret].
    + right. apply getImmOrLabel_throws in Hl as [? ->]. done.
    + rewrite assign_eq. by apply setReg_not_index.
  - destruct (destructure (parseReg (arg args 1))) as [e|[o rg]] eqn:Ha;
      cbn [mbind mret M_bind M_ret].
    + left. apply destructure_throws in Ha as [? ->]. auto.
    + rewrite assign_eq. by apply setReg_not_index.
  - destruct (destructure (parseReg (arg args 1))) as [e|[o rg]] eqn:Ha;
      cbn [mbind mret M_bind M_ret].
    + left. apply destructure_throws in Ha as [? ->]. auto.
    + rewrite assign_eq. by apply setReg_not_index.
Qed.

(** C10 (as amended). For a register-writing instruction ([add] ...
    [move], [lw], [lb]) whose destination token is not a register name,
    all 32 registers keep their values: the write is dropped, and the
    destination itself never raises a fault.  A fault can only come from
    another operand: the address operand of [lw]/[lb] when it decodes to
    nothing, or the label lookup of [la] when a label shadows
    [hasOwnProperty]. *)
Theorem unknown_destination_discarded (st : state) (inst : Inst.t) :
  error st = None →
  fetch st = Some inst →
  let m := mnemonic_of (Inst.op inst) in
  writes_destination m = true →
  (∀ i, parseReg (arg (Inst.args inst) 0) ≠ PIdx i) →
  regs (step st) = regs st
  ∧ (error (step st) = None
     ∨ ((m = LW ∨ m = LB)
        ∧ parseReg (arg (Inst.args inst) 1) = PUndef
        ∧ error (step st) = Some (RuntimeError (pc st) NotDestructurable))
     ∨ (m = LA
        ∧ is_Some (labelMap st !! "hasOwnProperty")
        ∧ error (step st) = Some (RuntimeError (pc st) NotAFunction))).
Proof.
  intros Herr Hfetch m Hm Hd.
  rewrite (step_instruction st inst Herr Hfetch). fold m.
  pose proof (exec_unknown_destination (pc st) (regs st) (memory st) (labelMap st)
                (Inst.args inst) m Hm Hd) as Hex.
  destruct (exec _ _ _ _ _ _) as [e|l]; cbn [regs error commit fail].
  - split; [reflexivity|]. right.
    destruct Hex as [(Hlw & Hp & ->) | (Hla & Hown & ->)]; [left | right]; done.
  - split; [exact Hex | by left].
Qed.

Lemma unknown_destination_discarded_witness :
  let st := assemble "add $bogus, $sp, $sp" initial in
  regs (step st) = regs st
  ∧ (error (step st) = None
     ∨ ((mnemonic_of "add" = LW ∨ mnemonic_of "add" = LB)
        ∧ parseReg (arg ["$bogus"; "$sp"; "$sp"] 1) = PUndef
        ∧ error (step st) = Some (RuntimeError (pc st) NotDestructurable))
     ∨ (mnemonic_of "add" = LA
        ∧ is_Some (labelMap st !! "hasOwnProperty")
        ∧ error (step st) = Some (RuntimeError (pc st) NotAFunction))).
Proof.
  intros st.
  exact (unknown_destination_discarded st
           (Inst.mk 4194304 "add" ["$bogus"; "$sp"; "$sp"] "add $bogus, $sp, $sp" 1)
           ltac:(vm_compute; reflexivity) ltac:(vm_compute; reflexivity)
           ltac:(vm_compute; reflexivity)
           ltac:(intros i; vm_compute; discriminate)).
Defined.

(** C10, as stated, fails: with a destination that is no register name, a
    step can still raise a fault, from the address operand of a load, or
    from the label lookup of [la] under a label named [hasOwnProperty]. *)
Lemma unknown_destination_can_fault :
  let st1 := assemble "lw foo, bar" initial in
  let st2 := assemble ("hasOwnProperty:" +:+ nl +:+ "la foo, bar") initial in
  parseReg (Some "foo") = PUndef
  ∧ error (step st1) = Some (RuntimeError (Num TEXT_START) NotDestructurable)
  ∧ error (step st2) = Some (RuntimeError (Num TEXT_START) NotAFunction).
Proof. vm_compute. repeat split. Qed.

(* ===================================================================== *)
(** * Further properties of the memory helpers *)
(* ===================================================================== *)

Lemma mod_256_of_mod_2_32 (z : Z) : (z mod 2 ^ 32) mod 256 = z mod 256.
Proof. Z.div_mod_to_equations. lia. Qed.

Lemma js_and_low_byte (val : num) :
  js_and val 0xFF = Fin (ToInt32 val mod 256).
Proof.
  unfold js_and. f_equal. cbn [ToInt32]. rewrite (wrap32_id 255) by lia.
  apply land_255.
Qed.

Lemma ToInt32_mod_256 (z : Z) : ToInt32 (Fin z) mod 256 = z mod 256.
Proof.
  cbn [ToInt32]. rewrite <- (mod_256_of_mod_2_32 (wrap32 z)), wrap32_mod.
  apply mod_256_of_mod_2_32.
Qed.

(** X1. A byte written by [setMemByte] is read back by [getMemByte] as the
    low 8 bits of the value (0 for a value that is not a number), and no
    other address is affected. *)
Theorem setMemByte_getMemByte (addr : num) (val : num) (currentMem : memory_t) :
  let nextMem := setMemByte addr val currentMem in
  getMemByte addr nextMem = Fin (ToInt32 val mod 256)
  ∧ 0 <= ToInt32 val mod 256 < 256
  ∧ (∀ z : Z, val = Fin z → getMemByte addr nextMem = Fin (z mod 256))
  ∧ (∀ a : num, a ≠ addr → getMemByte a nextMem = getMemByte a currentMem).
Proof.
  intros nextMem. subst nextMem. unfold getMemByte, setMemByte.
  rewrite js_and_low_byte, load_insert_eq.
  split; [reflexivity|]. split; [apply Z.mod_pos_bound; lia|]. split.
  - intros z ->. by rewrite ToInt32_mod_256.
  - intros a Ha. by rewrite load_insert_ne.
Qed.

(** X2. [setMemWord] touches the four addresses [addr .. addr+3] only:
    every other address reads as before. *)
Theorem setMemWord_frame (addr val : num) (currentMem : memory_t) (a : num) :
  a ≠ addr → a ≠ js_add addr 1 → a ≠ js_add addr 2 → a ≠ js_add addr 3 →
  getMemByte a (setMemWord addr val currentMem) = getMemByte a currentMem.
Proof.
  intros H0 H1 H2 H3. unfold getMemByte, setMemWord. by rewrite !load_insert_ne.
Qed.

Lemma setMemWord_frame_witness :
  getMemByte 0x10010004 (setMemWord 0x10010000 (-2) {[ Fin 0x10010004 := Fin 65 ]})
  = getMemByte 0x10010004 {[ Fin 0x10010004 := Fin 65 ]}.
Proof.
  apply (setMemWord_frame 0x10010000 (-2) {[ Fin 0x10010004 := Fin 65 ]} 0x10010004);
    vm_compute; discriminate.
Defined.

Lemma wrap32_bytes (b0 b1 b2 b3 : Z) :
  0 <= b0 < 256 → 0 <= b1 < 256 → 0 <= b2 < 256 → 0 <= b3 < 256 →
  let V := wrap32 (b0 * 2 ^ 24 + b1 * 2 ^ 16 + b2 * 2 ^ 8 + b3) in
  byte_of V 3 = b0 ∧ byte_of V 2 = b1 ∧ byte_of V 1 = b2 ∧ byte_of V 0 = b3.
Proof.
  intros H0 H1 H2 H3 V.
  assert (HV : V mod 2 ^ 32 = b0 * 2 ^ 24 + b1 * 2 ^ 16 + b2 * 2 ^ 8 + b3).
  { subst V. rewrite wrap32_mod. apply Z.mod_small. lia. }
  pose proof (wrap32_range (b0 * 2 ^ 24 + b1 * 2 ^ 16 + b2 * 2 ^ 8 + b3)) as HR.
  fold V in HR. clearbody V. unfold byte_of.
  change (8 * 0) with 0. change (8 * 1) with 8. change (8 * 2) with 16.
  change (8 * 3) with 24. change (2 ^ 0) with 1. rewrite Z.div_1_r.
  repeat split; Z.div_mod_to_equations; lia.
Qed.

(** X3. Word and byte accessors agree: when the four bytes at
    [addr .. addr+3] are [b0 .. b3], [getMemWord] returns their big-endian
    composition, read as a signed 32-bit integer.  A word of memory that
    was never written reads 0. *)
Theorem getMemWord_getMemByte (addr : num) (currentMem : memory_t) (b0 b1 b2 b3 : Z) :
  getMemByte addr currentMem = Fin b0 →
  getMemByte (js_add addr 1) currentMem = Fin b1 →
  getMemByte (js_add addr 2) currentMem = Fin b2 →
  getMemByte (js_add addr 3) currentMem = Fin b3 →
  0 <= b0 < 256 → 0 <= b1 < 256 → 0 <= b2 < 256 → 0 <= b3 < 256 →
  getMemWord addr currentMem =
    Fin (wrap32 (b0 * 2 ^ 24 + b1 * 2 ^ 16 + b2 * 2 ^ 8 + b3))
  ∧ getMemWord addr ∅ = Fin 0.
Proof.
  intros E0 E1 E2 E3 H0 H1 H2 H3. split; [|reflexivity].
  unfold getMemWord. unfold getMemByte in *. rewrite E0, E1, E2, E3.
  destruct (wrap32_bytes b0 b1 b2 b3 H0 H1 H2 H3) as (Hb0 & Hb1 & Hb2 & Hb3).
  pose proof (compose_bytes _ (wrap32_range
                (b0 * 2 ^ 24 + b1 * 2 ^ 16 + b2 * 2 ^ 8 + b3))) as Hc.
  rewrite Hb0, Hb1, Hb2, Hb3 in Hc. exact Hc.
Qed.

Lemma getMemWord_getMemByte_witness :
  getMemWord 0x10010000 (memory mounted) =
    Fin (wrap32 (70 * 2 ^ 24 + 105 * 2 ^ 16 + 98 * 2 ^ 8 + 111))
  ∧ getMemWord 0x10010000 ∅ = Fin 0.
Proof.
  apply (getMemWord_getMemByte 0x10010000 (memory mounted) 70 105 98 111);
    solve [vm_compute; reflexivity | lia].
Defined.

(* ===================================================================== *)
(** * Reset *)
(* ===================================================================== *)

(** X4. After [reset] every register is 0 except [$sp] (index 29), which
    holds [STACK_START]; memory and output are empty, the PC is
    [TEXT_START], the fault is cleared, and the loaded program (instructions,
    labels, source map) is kept.  [assemble] leaves the same registers. *)
Theorem reset_state (st : state) (i : fin 32) :
  regs (reset st) !!! i = (if decide (i = ridx 29) then STACK_START else 0)
  ∧ regs (reset st) !!! ridx 29 = 0x7FFFFFFC
  ∧ pc (reset st) = Num TEXT_START
  ∧ (∀ a, getMemByte a (memory (reset st)) = Fin 0)
  ∧ output (reset st) = [] ∧ error (reset st) = None
  ∧ isRunning (reset st) = false
  ∧ instructions (reset st) = instructions st
  ∧ labelMap (reset st) = labelMap st ∧ sourceMap (reset st) = sourceMap st
  ∧ ∀ sourceCode, regs (assemble sourceCode st) = regs (reset st).
Proof.
  split.
  { cbn [reset regs]. unfold newRegs. destruct (decide (i = ridx 29)) as [->|Hne].
    - apply vlookup_insert.
    - rewrite vlookup_insert_ne by done. apply vlookup_replicate. }
  split; [reflexivity|]. repeat split.
  intros sourceCode. unfold assemble. by destruct (assemble_loop _ _ _).
Qed.

(* ===================================================================== *)
(** * Invariants of [step] *)
(* ===================================================================== *)

Lemma step_keeps_program (st : state) :
  instructions (step st) = instructions st
  ∧ labelMap (step st) = labelMap st
  ∧ sourceMap (step st) = sourceMap st.
Proof.
  unfold step. destruct (error st); [done|].
  destruct (fetch st); [|done]. by destruct (exec _ _ _ _ _ _).
Qed.

Lemma steps_program (st : state) (n : nat) :
  instructions (steps n st) = instructions st
  ∧ labelMap (steps n st) = labelMap st
  ∧ sourceMap (steps n st) = sourceMap st.
Proof.
  induction n as [|n (IH1 & IH2 & IH3)]; [done|].
  rewrite steps_S. destruct (step_keeps_program (steps n st)) as (-> & -> & ->).
  done.
Qed.

(** X5. The loaded program is never changed by execution: instructions,
    label table and source map after any number of steps are those
    installed by [assemble], also on a run that ends in a fault or in the
    exit service. *)
Theorem steps_keep_program (st : state) (n : nat) :
  instructions (steps n st) = instructions st
  ∧ labelMap (steps n st) = labelMap st
  ∧ sourceMap (steps n st) = sourceMap st.
Proof. apply steps_program. Qed.

(** X6. A faulted machine is frozen: while [error] is set, no number of
    [step] calls changes anything, until [reset] clears the fault. *)
Theorem faulted_machine_frozen (st : state) (n : nat) :
  error st ≠ None →
  steps n st = st ∧ error (reset st) = None.
Proof.
  intros H. split; [|reflexivity].
  induction n as [|n IH]; [reflexivity|].
  by rewrite steps_S, IH, step_faulted.
Qed.

Lemma faulted_machine_frozen_witness :
  let st := step (assemble "lw $t0, value" initial) in
  steps 3 st = st ∧ error (reset st) = None.
Proof.
  intros st. apply (faulted_machine_frozen st 3). vm_compute. discriminate.
Defined.

Lemma ToInt32_range (v : num) : int32 (ToInt32 v).
Proof.
  destruct v; cbn [ToInt32]; [unfold int32; lia.. | apply wrap32_range].
Qed.

Lemma vinsert_int32 (r : vec Z 32) (i : fin 32) (v : num) :
  (∀ j, int32 (r !!! j)) → ∀ j, int32 (vinsert i (ToInt32 v) r !!! j).
Proof.
  intros H j. destruct (decide (i = j)) as [->|Hne].
  - rewrite vlookup_insert. apply ToInt32_range.
  - by rewrite vlookup_insert_ne.
Qed.

Lemma setReg_int32 (r : vec Z 32) (k : parsed) (v : num) :
  (∀ j, int32 (r !!! j)) → ∀ j, int32 (setReg r k v !!! j).
Proof. intros H. destruct k; cbn [setReg]; auto using vinsert_int32. Qed.

Lemma exec_int32 (pc0 : jsval) (r : vec Z 32) (mem : memory_t)
    (lm : gmap string num) (args : list string) (m : mnemonic) :
  (∀ j, int32 (r !!! j)) →
  match exec pc0 r mem lm args m with
  | inr l => ∀ j, int32 (nextRegs l !!! j)
  | inl _ => True
  end.
Proof.
  intros H.
  destruct m; unfold exec, address; rewrite ?assign_eq;
    repeat match goal with
      | |- context [destructure ?p] =>
          destruct (destructure p) as [?|[? ?]]; cbn [mbind mret M_bind M_ret throw]
      | |- context [getImmOrLabel ?l ?s] =>
          destruct (getImmOrLabel l s); cbn [mbind mret M_bind M_ret throw]
      | |- context [strict_eq ?a ?b] =>
          destruct (strict_eq a b); cbn [mbind mret M_bind M_ret throw negb]
      | |- context [Z.eqb ?a ?b] => destruct (Z.eqb a b)
      end;
    rewrite ?assign_eq; cbn [nextRegs mret M_ret]; try exact I;
    auto using setReg_int32, vinsert_int32.
Qed.

Lemma step_int32 (st : state) :
  (∀ j, int32 (regs st !!! j)) → ∀ j, int32 (regs (step st) !!! j).
Proof.
  intros H. unfold step. destruct (error st); [done|].
  destruct (fetch st) as [inst|]; [|done].
  pose proof (exec_int32 (pc st) (regs st) (memory st) (labelMap st)
                (Inst.args inst) (mnemonic_of (Inst.op inst)) H) as Hex.
  by destruct (exec _ _ _ _ _ _) as [e|l].
Qed.

Lemma assemble_regs (sourceCode : string) (st : state) :
  regs (assemble sourceCode st) = newRegs.
Proof. unfold assemble. by destruct (assemble_loop _ _ _). Qed.

Lemma newRegs_int32 : ∀ j, int32 (newRegs !!! j).
Proof.
  intros j. unfold newRegs. destruct (decide (ridx 29 = j)) as [<-|Hne].
  - rewrite vlookup_insert. unfold int32, STACK_START. lia.
  - rewrite vlookup_insert_ne, vlookup_replicate by done. unfold int32. lia.
Qed.

(** X7. Every register always holds a signed 32-bit integer: whatever the
    source and however many steps are executed after [assemble], each of
    the 32 registers is within [-2^31, 2^31). *)
Theorem registers_are_int32 (sourceCode : string) (st0 : state) (n : nat) (j : fin 32) :
  int32 (regs (steps n (assemble sourceCode st0)) !!! j).
Proof.
  revert j. induction n as [|n IH].
  - intros j. change (steps 0 (assemble sourceCode st0)) with (assemble sourceCode st0).
    rewrite assemble_regs. apply newRegs_int32.
  - rewrite steps_S. by apply step_int32.
Qed.

Lemma insert_byte_memory (m : memory_t) (a : num) (val : num) :
  byte_memory m → byte_memory (<[a := js_and val 0xFF]> m).
Proof.
  intros H a' v. rewrite js_and_low_byte.
  destruct (decide (a = a')) as [->|Hne].
  - rewrite lookup_insert_eq. intros [= <-]. eexists. split; [reflexivity|].
    apply Z.mod_pos_bound. lia.
  - rewrite lookup_insert_ne by done. apply H.
Qed.

Lemma exec_byte_memory (pc0 : jsval) (r : vec Z 32) (mem : memory_t)
    (lm : gmap string num) (args : list string) (m : mnemonic) :
  byte_memory mem →
  match exec pc0 r mem lm args m with
  | inr l => byte_memory (nextMem l)
  | inl _ => True
  end.
Proof.
  intros H.
  destruct m; unfold exec, address; rewrite ?assign_eq;
    repeat match goal with
      | |- context [destructure ?p] =>
          destruct (destructure p) as [?|[? ?]]; cbn [mbind mret M_bind M_ret throw]
      | |- context [getImmOrLabel ?l ?s] =>
          destruct (getImmOrLabel l s); cbn [mbind mret M_bind M_ret throw]
      | |- context [strict_eq ?a ?b] =>
          destruct (strict_eq a b); cbn [mbind mret M_bind M_ret throw negb]
      | |- context [Z.eqb ?a ?b] => destruct (Z.eqb a b)
      end;
    rewrite ?assign_eq; cbn [nextMem mret M_ret]; try exact I; try exact H;
    unfold setMemWord, setMemByte; auto using insert_byte_memory.
Qed.

(** X8. Memory holds bytes: if every stored value is in 0..255 before a
    run, it is so after any number of steps ([sb] and [sw] mask every byte
    they store with [0xFF]). *)
Theorem memory_stays_bytes (st : state) (n : nat) :
  byte_memory (memory st) → byte_memory (memory (steps n st)).
Proof.
  intros H. induction n as [|n IH]; [exact H|].
  rewrite steps_S. unfold step. destruct (error (steps n st)); [done|].
  destruct (fetch (steps n st)) as [inst|]; [|done].
  pose proof (exec_byte_memory (pc (steps n st)) (regs (steps n st))
                (memory (steps n st)) (labelMap (steps n st))
                (Inst.args inst) (mnemonic_of (Inst.op inst)) IH) as Hex.
  by destruct (exec _ _ _ _ _ _) as [e|l].
Qed.

Lemma memory_stays_bytes_witness :
  byte_memory (memory (steps 2 (assemble ("li $t0, 511" +:+ nl +:+ "sb $t0, 4($sp)") initial))).
Proof.
  apply (memory_stays_bytes (assemble ("li $t0, 511" +:+ nl +:+ "sb $t0, 4($sp)") initial) 2).
  vm_compute. intros a v H. discriminate H.
Defined.

(* ===================================================================== *)
(** * Faults *)
(* ===================================================================== *)

Lemma exec_fault_cases (pc0 : jsval) (r : vec Z 32) (mem : memory_t)
    (lm : gmap string num) (args : list string) (m : mnemonic) :
  match exec pc0 r mem lm args m with
  | inr _ => True
  | inl e =>
      (e = NotDestructurable ∧ is_memory_access m = true
       ∧ parseReg (arg args 1) = PUndef)
      ∨ (e = NotAFunction ∧ resolves_label m = true
         ∧ is_Some (lm !! "hasOwnProperty"))
  end.
Proof.
  destruct m; unfold exec, address; rewrite ?assign_eq;
    repeat match goal with
      | |- context [destructure ?p] =>
          destruct (destructure p) as [?|[? ?]] eqn:?;
          cbn [mbind mret M_bind M_ret throw]
      | |- context [getImmOrLabel ?l ?s] =>
          destruct (getImmOrLabel l s) eqn:?; cbn [mbind mret M_bind M_ret throw]
      | |- context [strict_eq ?a ?b] =>
          destruct (strict_eq a b); cbn [mbind mret M_bind M_ret throw negb]
      | |- context [Z.eqb ?a ?b] => destruct (Z.eqb a b)
      end;
    rewrite ?assign_eq; cbn [mret M_ret]; try exact I;
    match goal with
    | H : destructure _ = inl _ |- _ =>
        apply destructure_throws in H as [? ->]; by left
    | H : getImmOrLabel _ _ = inl _ |- _ =>
        apply getImmOrLabel_throws in H as [? ->]; by right
    end.
Qed.

(** X9. The only runtime faults: a load or store ([lw], [sw], [lb], [sb])
    whose address operand decodes to [undefined], and a label lookup
    ([la], [beq], [bne], [j], [jal]) while a label named [hasOwnProperty]
    is defined.  The fault carries the PC of the faulting instruction.
    Arithmetic, logic, shifts, [li], [lui], [move], [jr], [syscall] and
    unknown mnemonics never fault. *)
Theorem step_fault_cases (st : state) (f : fault) :
  error st = None →
  error (step st) = Some f →
  ∃ inst e,
    fetch st = Some inst
    ∧ f = RuntimeError (Num (Inst.pc inst)) e
    ∧ ((e = NotDestructurable
        ∧ is_memory_access (mnemonic_of (Inst.op inst)) = true
        ∧ parseReg (arg (Inst.args inst) 1) = PUndef)
       ∨ (e = NotAFunction
          ∧ resolves_label (mnemonic_of (Inst.op inst)) = true
          ∧ is_Some (labelMap st !! "hasOwnProperty"))).
Proof.
  intros Herr Hf.
  destruct (fetch st) as [inst|] eqn:Hfetch.
  2:{ rewrite step_no_instruction in Hf by done. cbn [halt error] in Hf. congruence. }
  rewrite (step_instruction st inst Herr Hfetch) in Hf.
  pose proof (exec_fault_cases (pc st) (regs st) (memory st) (labelMap st)
                (Inst.args inst) (mnemonic_of (Inst.op inst))) as Hex.
  destruct (exec _ _ _ _ _ _) as [e|l].
  - cbn [fail error] in Hf. injection Hf as <-.
    exists inst, e. rewrite (fetch_pc st inst Hfetch). done.
  - cbn [commit error] in Hf. congruence.
Qed.

Lemma step_fault_cases_witness :
  let st := assemble "sw $t0, 8" initial in
  ∃ inst e,
    fetch st = Some inst
    ∧ RuntimeError (Num TEXT_START) NotDestructurable = RuntimeError (Num (Inst.pc inst)) e
    ∧ ((e = NotDestructurable
        ∧ is_memory_access (mnemonic_of (Inst.op inst)) = true
        ∧ parseReg (arg (Inst.args inst) 1) = PUndef)
       ∨ (e = NotAFunction
          ∧ resolves_label (mnemonic_of (Inst.op inst)) = true
          ∧ is_Some (labelMap st !! "hasOwnProperty"))).
Proof.
  intros st.
  exact (step_fault_cases st (RuntimeError (Num TEXT_START) NotDestructurable)
           ltac:(vm_compute; reflexivity) ltac:(vm_compute; reflexivity)).
Defined.

(** X10. A load or store faults exactly when [parseReg] yields
    [undefined] for its address operand: the operand is neither of the form
    [offset(register)] nor a register name (a bare label or number, as in
    [lw $t0, value], is such an operand).  Otherwise it does not fault. *)
Theorem memory_access_fault (st : state) (inst : Inst.t) :
  error st = None →
  fetch st = Some inst →
  is_memory_access (mnemonic_of (Inst.op inst)) = true →
  (parseReg (arg (Inst.args inst) 1) = PUndef →
     error (step st) = Some (RuntimeError (pc st) NotDestructurable)
     ∧ regs (step st) = regs st ∧ memory (step st) = memory st
     ∧ pc (step st) = pc st)
  ∧ (parseReg (arg (Inst.args inst) 1) ≠ PUndef → error (step st) = None).
Proof.
  intros Herr Hfetch Hm.
  rewrite (step_instruction st inst Herr Hfetch).
  split.
  - intros Hp.
    destruct (mnemonic_of (Inst.op inst)); try discriminate Hm;
      unfold exec, address; rewrite Hp; cbn [destructure mbind M_bind throw];
      done.
  - intros Hp.
    destruct (mnemonic_of (Inst.op inst)); try discriminate Hm;
      unfold exec, address;
      (destruct (parseReg (arg (Inst.args inst) 1)); [| done | |]);
      cbn [destructure mbind mret M_bind M_ret]; rewrite ?assign_eq; done.
Qed.

Lemma memory_access_fault_witness :
  let st := assemble (".data" +:+ nl +:+ "value: .word 7" +:+ nl +:+ ".text"
                        +:+ nl +:+ "lw $t0, value") initial in
  (parseReg (arg ["$t0"; "value"] 1) = PUndef →
     error (step st) = Some (RuntimeError (pc st) NotDestructurable)
     ∧ regs (step st) = regs st ∧ memory (step st) = memory st
     ∧ pc (step st) = pc st)
  ∧ (parseReg (arg ["$t0"; "value"] 1) ≠ PUndef → error (step st) = None).
Proof.
  intros st.
  exact (memory_access_fault st
           (Inst.mk 4194304 "lw" ["$t0"; "value"] "lw $t0, value" 4)
           ltac:(vm_compute; reflexivity) ltac:(vm_compute; reflexivity)
           ltac:(vm_compute; reflexivity)).
Defined.

(* ===================================================================== *)
(** * Unknown mnemonics and system calls *)
(* ===================================================================== *)

(** X11. An unrecognised mnemonic is skipped: the step raises no fault,
    changes no register, no memory and no output, and moves the PC to the
    next instruction. *)
Theorem unknown_mnemonic_skipped (st : state) (inst : Inst.t) :
  error st = None →
  fetch st = Some inst →
  mnemonic_of (Inst.op inst) = UNKNOWN →
  error (step st) = None
  ∧ regs (step st) = regs st ∧ memory (step st) = memory st
  ∧ output (step st) = output st
  ∧ pc (step st) = Num (js_add (Inst.pc inst) 4).
Proof.
  intros Herr Hfetch Hm.
  rewrite (step_instruction st inst Herr Hfetch), Hm.
  cbn [exec mret M_ret commit regs memory output pc error nextRegs nextMem
       nextPc outputAppend].
  rewrite (fetch_pc st inst Hfetch). done.
Qed.

Lemma unknown_mnemonic_skipped_witness :
  let st := assemble "nop" initial in
  error (step st) = None
  ∧ regs (step st) = regs st ∧ memory (step st) = memory st
  ∧ output (step st) = output st
  ∧ pc (step st) = Num (js_add (Fin 4194304) 4).
Proof.
  intros st.
  exact (unknown_mnemonic_skipped st (Inst.mk 4194304 "nop" [] "nop" 1)
           ltac:(vm_compute; reflexivity) ltac:(vm_compute; reflexivity)
           ltac:(vm_compute; reflexivity)).
Defined.

(** X12. A [syscall] never faults and never changes a register or memory.
    Service 1 appends the signed decimal of [$a0], service 11 the single
    character of code [$a0 mod 2^16], service 10 sets the PC to 0 and
    clears [isRunning]; any service other than 1, 4, 10, 11 only advances
    the PC. *)
Theorem syscall_effects (st : state) (inst : Inst.t) :
  error st = None →
  fetch st = Some inst →
  mnemonic_of (Inst.op inst) = SYSCALL →
  let v0 := regs st !!! ridx 2 in
  let a0 := regs st !!! ridx 4 in
  error (step st) = None
  ∧ regs (step st) = regs st ∧ memory (step st) = memory st
  ∧ (v0 = 1 → output (step st) = output st ++ decimal a0)
  ∧ (v0 = 11 → output (step st) = output st ++ [a0 mod 2 ^ 16])
  ∧ (v0 = 10 → pc (step st) = Num 0 ∧ isRunning (step st) = false
               ∧ output (step st) = output st)
  ∧ (v0 ≠ 10 → pc (step st) = Num (js_add (Inst.pc inst) 4)
               ∧ isRunning (step st) = isRunning st)
  ∧ (v0 ≠ 1 → v0 ≠ 4 → v0 ≠ 11 → output (step st) = output st).
Proof.
  intros Herr Hfetch Hm v0 a0.
  rewrite (step_instruction st inst Herr Hfetch), Hm.
  rewrite (fetch_pc st inst Hfetch). unfold exec. fold v0 a0.
  destruct (Z.eqb_spec v0 1) as [H1|H1];
    [|destruct (Z.eqb_spec v0 4) as [H4|H4];
      [|destruct (Z.eqb_spec v0 10) as [H10|H10];
        [|destruct (Z.eqb_spec v0 11) as [H11|H11]]]];
    cbn [mret M_ret]; rewrite ?commit_output;
    cbn [commit regs memory pc error isRunning nextRegs nextMem nextPc
         outputAppend stopped ToNumber ToUint16];
    rewrite ?app_nil_r; repeat split; intros; try done; try lia.
Qed.

Lemma syscall_effects_witness :
  let st := steps 8 mounted in
  error (step st) = None
  ∧ regs (step st) = regs st ∧ memory (step st) = memory st.
Proof.
  intros st.
  destruct (syscall_effects st (Inst.mk 4194336 "syscall" [] "syscall" 24)
              ltac:(vm_compute; reflexivity) ltac:(vm_compute; reflexivity)
              ltac:(vm_compute; reflexivity)) as (H1 & H2 & H3 & _).
  split; [exact H1 | split; [exact H2 | exact H3]].
Defined.

(* ===================================================================== *)
(** * Loads and stores *)
(* ===================================================================== *)

Lemma address_eq (r : vec Z 32) (args : list string) (off : num) (reg : parsed) :
  parseReg (arg args 1) = PMem off reg →
  address r args = inr (js_add (ToNumber (getRegVal r reg)) off).
Proof. intros H. unfold address. rewrite H. reflexivity. Qed.

Lemma lb_value_byte_nat (n : nat) :
  (n < 256)%nat →
  ToInt32 (lb_value (Fin (Z.of_nat n))) = sign_extend8 (Z.of_nat n).
Proof.
  intros H.
  assert (Hall : forallb (λ k, ToInt32 (lb_value (Fin (Z.of_nat k)))
                               =? sign_extend8 (Z.of_nat k)) (seq 0 256) = true)
    by (vm_compute; reflexivity).
  rewrite forallb_forall in Hall. apply Z.eqb_eq, Hall, in_seq. lia.
Qed.

Lemma lb_value_byte (b : Z) :
  0 <= b < 256 → ToInt32 (lb_value (Fin b)) = sign_extend8 b.
Proof.
  intros H. rewrite <- (Z2Nat.id b) by lia. apply lb_value_byte_nat. lia.
Qed.

Lemma byte_read_back (addr : num) (z : Z) (currentMem : memory_t) :
  getMemByte addr (setMemByte addr (Fin z) currentMem) = Fin (z mod 256).
Proof.
  unfold getMemByte, setMemByte.
  by rewrite js_and_low_byte, load_insert_eq, ToInt32_mod_256.
Qed.

(** X13. Store then load a word: after [sw s, t] and [lw d, t] with the
    same address operand [t] (of the form [offset(register)]), register [d]
    holds the value register [s] had, no fault is raised, and no other
    register has changed. *)
Theorem sw_lw_roundtrip (st : state) (i1 i2 : Inst.t) (s d t : string)
    (off : num) (base : parsed) (A z : Z) (di : fin 32) :
  error st = None →
  fetch st = Some i1 → mnemonic_of (Inst.op i1) = SW → Inst.args i1 = [s; t] →
  fetch (step st) = Some i2 → mnemonic_of (Inst.op i2) = LW → Inst.args i2 = [d; t] →
  parseReg (Some t) = PMem off base →
  js_add (ToNumber (getRegVal (regs st) base)) off = Fin A →
  Z.abs A <= 2 ^ 53 - 3 →
  getRegVal (regs st) (parseReg (Some s)) = Num (Fin z) → int32 z →
  parseReg (Some d) = PIdx di →
  error (step (step st)) = None
  ∧ regs (step (step st)) !!! di = z
  ∧ (∀ j, j ≠ di → regs (step (step st)) !!! j = regs st !!! j)
  ∧ getMemWord A (memory (step st)) = Fin z.
Proof.
  intros Herr Hf1 Hm1 Ha1 Hf2 Hm2 Ha2 Ht HA HAr Hz Hzr Hd.
  assert (Hs1 : step st =
    commit st (mkLocals (Num (js_add (ToNumber (pc st)) 4)) (regs st)
                 (setMemWord A z (memory st)) [] false)).
  { rewrite (step_instruction st i1 Herr Hf1), Hm1, Ha1. unfold exec.
    rewrite (address_eq _ _ off base) by exact Ht. rewrite HA.
    cbn [mbind mret M_bind M_ret]. unfold operand.
    change (arg [s; t] 0) with (Some s). by rewrite Hz. }
  assert (Hr1 : regs (step st) = regs st) by (by rewrite Hs1).
  assert (Hmem1 : memory (step st) = setMemWord A z (memory st)) by (by rewrite Hs1).
  assert (He1 : error (step st) = None) by (by rewrite Hs1).
  pose proof (word_read_back A z (memory st) HAr Hzr) as Hword.
  assert (Hs2 : step (step st) =
    commit (step st) (mkLocals (Num (js_add (ToNumber (pc (step st))) 4))
                        (vinsert di z (regs st)) (memory (step st)) [] false)).
  { rewrite (step_instruction (step st) i2 He1 Hf2), Hm2, Ha2. unfold exec.
    rewrite (address_eq _ _ off base) by exact Ht. rewrite Hr1, HA.
    cbn [mbind mret M_bind M_ret]. rewrite assign_eq.
    change (arg [d; t] 0) with (Some d). rewrite Hd, Hmem1, Hword.
    cbn [setReg ToInt32]. by rewrite (wrap32_id z). }
  rewrite Hs2. cbn [commit error regs nextRegs]. split; [exact He1|]. split; [|split].
  - apply vlookup_insert.
  - intros j Hj. apply vlookup_insert_ne. congruence.
  - by rewrite Hmem1.
Qed.

Lemma sw_lw_roundtrip_witness :
  let st := assemble ("sw $sp, 4($sp)" +:+ nl +:+ "lw $t0, 4($sp)") initial in
  error (step (step st)) = None
  ∧ regs (step (step st)) !!! ridx 8 = 0x7FFFFFFC.
Proof.
  intros st.
  destruct (sw_lw_roundtrip st
              (Inst.mk 4194304 "sw" ["$sp"; "4($sp)"] "sw $sp, 4($sp)" 1)
              (Inst.mk 4194308 "lw" ["$t0"; "4($sp)"] "lw $t0, 4($sp)" 2)
              "$sp" "$t0" "4($sp)" 4 (PIdx (ridx 29)) 0x80000000 0x7FFFFFFC (ridx 8)
              ltac:(vm_compute; reflexivity) ltac:(vm_compute; reflexivity)
              ltac:(vm_compute; reflexivity) ltac:(vm_compute; reflexivity)
              ltac:(vm_compute; reflexivity) ltac:(vm_compute; reflexivity)
              ltac:(vm_compute; reflexivity) ltac:(vm_compute; reflexivity)
              ltac:(vm_compute; reflexivity) ltac:(vm_compute; discriminate)
              ltac:(vm_compute; reflexivity)
              ltac:(unfold int32; lia)
              ltac:(vm_compute; reflexivity)) as (H1 & H2 & _).
  split; [exact H1 | exact H2].
Defined.

(** X14. Store then load a byte: after [sb s, t] and [lb d, t] with the
    same address operand, register [d] holds the low byte of register [s],
    sign-extended to 32 bits. *)
Theorem sb_lb_sign_extends (st : state) (i1 i2 : Inst.t) (s d t : string)
    (off : num) (base : parsed) (addr : num) (z : Z) (di : fin 32) :
  error st = None →
  fetch st = Some i1 → mnemonic_of (Inst.op i1) = SB → Inst.args i1 = [s; t] →
  fetch (step st) = Some i2 → mnemonic_of (Inst.op i2) = LB → Inst.args i2 = [d; t] →
  parseReg (Some t) = PMem off base →
  js_add (ToNumber (getRegVal (regs st) base)) off = addr →
  getRegVal (regs st) (parseReg (Some s)) = Num (Fin z) →
  parseReg (Some d) = PIdx di →
  error (step (step st)) = None
  ∧ regs (step (step st)) !!! di = sign_extend8 (z mod 256)
  ∧ - 128 <= regs (step (step st)) !!! di < 128
  ∧ (regs (step (step st)) !!! di) mod 256 = z mod 256
  ∧ getMemByte addr (memory (step st)) = Fin (z mod 256).
Proof.
  intros Herr Hf1 Hm1 Ha1 Hf2 Hm2 Ha2 Ht HA Hz Hd.
  assert (Hs1 : step st =
    commit st (mkLocals (Num (js_add (ToNumber (pc st)) 4)) (regs st)
                 (setMemByte addr z (memory st)) [] false)).
  { rewrite (step_instruction st i1 Herr Hf1), Hm1, Ha1. unfold exec.
    rewrite (address_eq _ _ off base) by exact Ht. rewrite HA.
    cbn [mbind mret M_bind M_ret]. unfold operand.
    change (arg [s; t] 0) with (Some s). by rewrite Hz. }
  assert (Hr1 : regs (step st) = regs st) by (by rewrite Hs1).
  assert (Hmem1 : memory (step st) = setMemByte addr z (memory st)) by (by rewrite Hs1).
  assert (He1 : error (step st) = None) by (by rewrite Hs1).
  pose proof (byte_read_back addr z (memory st)) as Hbyte.
  assert (Hb : 0 <= z mod 256 < 256) by (apply Z.mod_pos_bound; lia).
  assert (Hs2 : step (step st) =
    commit (step st) (mkLocals (Num (js_add (ToNumber (pc (step st))) 4))
                        (vinsert di (sign_extend8 (z mod 256)) (regs st))
                        (memory (step st)) [] false)).
  { rewrite (step_instruction (step st) i2 He1 Hf2), Hm2, Ha2. unfold exec.
    rewrite (address_eq _ _ off base) by exact Ht. rewrite Hr1, HA.
    cbn [mbind mret M_bind M_ret]. rewrite assign_eq.
    change (arg [d; t] 0) with (Some d). rewrite Hd, Hmem1, Hbyte.
    fold (lb_value (Fin (z mod 256))). cbn [setReg].
    by rewrite (lb_value_byte _ Hb). }
  rewrite Hs2. cbn [commit error regs nextRegs]. split; [exact He1|].
  rewrite vlookup_insert. split; [reflexivity|]. split; [|split].
  - unfold sign_extend8. destruct (Z.ltb_spec (z mod 256) 128); lia.
  - unfold sign_extend8. destruct (Z.ltb_spec (z mod 256) 128).
    + apply Z.mod_small. lia.
    + clear. Z.div_mod_to_equations. lia.
  - by rewrite Hmem1.
Qed.

Lemma sb_lb_sign_extends_witness :
  let st := steps 1 (assemble ("li $t1, 511" +:+ nl +:+ "sb $t1, 4($sp)" +:+ nl
                                 +:+ "lb $t0, 4($sp)") initial) in
  error (step (step st)) = None
  ∧ regs (step (step st)) !!! ridx 8 = sign_extend8 (511 mod 256)
  ∧ sign_extend8 (511 mod 256) = -1.
Proof.
  intros st.
  destruct (sb_lb_sign_extends st
              (Inst.mk 4194308 "sb" ["$t1"; "4($sp)"] "sb $t1, 4($sp)" 2)
              (Inst.mk 4194312 "lb" ["$t0"; "4($sp)"] "lb $t0, 4($sp)" 3)
              "$t1" "$t0" "4($sp)" 4 (PIdx (ridx 29)) 0x80000000 511 (ridx 8)
              ltac:(vm_compute; reflexivity) ltac:(vm_compute; reflexivity)
              ltac:(vm_compute; reflexivity) ltac:(vm_compute; reflexivity)
              ltac:(vm_compute; reflexivity) ltac:(vm_compute; reflexivity)
              ltac:(vm_compute; reflexivity) ltac:(vm_compute; reflexivity)
              ltac:(vm_compute; reflexivity) ltac:(vm_compute; reflexivity)
              ltac:(vm_compute; reflexivity)) as (H1 & H2 & _).
  split; [exact H1 | split; [exact H2 | vm_compute; reflexivity]].
Defined.

(* ===================================================================== *)
(** * Layout of an assembled program *)
(* ===================================================================== *)

Lemma text_ptr_next_value (t : Z) :
  0 <= t <= 2 ^ 55 → t mod 4 = 0 →
  js_add (Fin t) 4 = Fin (Z.min (t + 4) (2 ^ 55)).
Proof.
  intros Ht Hmod. cbn [js_add].
  assert (Hmod' : (t + 4) mod 4 = 0).
  { clear -Hmod. Z.div_mod_to_equations. lia. }
  destruct (Z.le_gt_cases (t + 4) (2 ^ 53)) as [Hle|Hgt].
  { rewrite to_double_exact by lia. f_equal. lia. }
  destruct (Z.lt_ge_cases (t + 4) (2 ^ 54)) as [H54|H54].
  { rewrite (to_double_multiple (t + 4) 1).
    - f_equal. lia.
    - lia.
    - change (52 + 1) with 53. change (53 + 1) with 54. lia.
    - change (2 ^ 1) with 2. clear -Hmod'. Z.div_mod_to_equations. lia. }
  destruct (Z.lt_ge_cases (t + 4) (2 ^ 55)) as [H55|H55].
  { rewrite (to_double_multiple (t + 4) 2).
    - f_equal. lia.
    - lia.
    - change (52 + 2) with 54. change (53 + 2) with 55. lia.
    - exact Hmod'. }
  assert (Hcases : t = 2 ^ 55 - 4 ∨ t = 2 ^ 55).
  { clear -Ht Hmod H55. Z.div_mod_to_equations. lia. }
  destruct Hcases as [-> | ->]; vm_compute; reflexivity.
Qed.

Lemma text_addr_S (k : nat) :
  js_add (Fin (text_addr k)) 4 = Fin (text_addr (S k)).
Proof.
  unfold text_addr. rewrite text_ptr_next_value.
  - f_equal. unfold TEXT_START. lia.
  - unfold TEXT_START. lia.
  - apply Z.min_case.
    + unfold TEXT_START. rewrite Z.add_mod, Z.mul_comm, Z.mod_mul by lia.
      reflexivity.
    + reflexivity.
Qed.

Lemma text_addr_lt (j k : nat) :
  (j < k)%nat → TEXT_START + 4 * Z.of_nat j < 2 ^ 55 → text_addr j < text_addr k.
Proof. unfold text_addr. lia. Qed.

Lemma assemble_data_keeps (line : string) (a : asm) :
  ∃ a', assemble_data line a = inr a'
        ∧ textPtr a' = textPtr a ∧ newInstructions a' = newInstructions a
        ∧ newSourceMap a' = newSourceMap a.
Proof.
  unfold assemble_data.
  repeat case_match; simplify_eq; eexists; (split; [reflexivity|]); done.
Qed.

(** One source line either leaves the text segment as it is, or appends one
    instruction at the text pointer and advances the pointer by 4. *)
Lemma assemble_line_cases (i : Z) (raw : string) (a : asm) :
  ∃ a', assemble_line i raw a = inr a'
    ∧ ((textPtr a' = textPtr a ∧ newInstructions a' = newInstructions a
        ∧ newSourceMap a' = newSourceMap a)
       ∨ (∃ inst,
            Inst.pc inst = textPtr a ∧ Inst.sourceLine inst = i + 1
            ∧ newInstructions a' = newInstructions a ++ [inst]
            ∧ textPtr a' = js_add (textPtr a) 4
            ∧ newSourceMap a' = <[textPtr a := i + 1]> (newSourceMap a))).
Proof.
  unfold assemble_line. cbv zeta.
  set (line0 := if indexOf "#" (trim raw) =? -1 then _ else _). clearbody line0.
  destruct (String.eqb line0 ""); [exists a; split; [done | by left]|].
  destruct (String.eqb line0 ".data"); [eexists; split; [reflexivity | by left]|].
  destruct (String.eqb line0 ".text"); [eexists; split; [reflexivity | by left]|].
  set (p := if includes ":" line0 then _ else _).
  assert (Hp : textPtr p.2 = textPtr a ∧ newInstructions p.2 = newInstructions a
               ∧ newSourceMap p.2 = newSourceMap a)
    by (subst p; by destruct (includes _ _)).
  destruct p as [line2 a2]. cbn [snd] in Hp. destruct Hp as (Hp1 & Hp2 & Hp3).
  destruct (String.eqb line2 ""); [exists a2; split; [done | by left]|].
  destruct (currentSection a2).
  - destruct (assemble_data_keeps line2 a2) as (a' & -> & H1 & H2 & H3).
    exists a'. split; [reflexivity|]. left. by rewrite H1, H2, H3.
  - unfold assemble_text. destruct (match_words _) as [|op args].
    + exists a2. split; [done | by left].
    + eexists. split; [reflexivity|]. right. eexists.
      cbn [textPtr newInstructions newSourceMap Inst.pc Inst.sourceLine].
      rewrite Hp1, Hp2, Hp3. repeat split; reflexivity.
Qed.

Lemma layout_asm0 : layout asm0.
Proof. split; [reflexivity|]. split; intros k inst H; by destruct k. Qed.

Lemma assemble_line_layout (i : Z) (raw : string) (a : asm) :
  layout a → ∃ a', assemble_line i raw a = inr a' ∧ layout a'.
Proof.
  intros (Hptr & Hpc & Hsm).
  destruct (assemble_line_cases i raw a) as (a' & Ha' & Hcases).
  exists a'. split; [exact Ha'|].
  destruct Hcases as [(H1 & H2 & H3) | (inst & Hi1 & Hi2 & H2 & H1 & H3)].
  { unfold layout. by rewrite H1, H2, H3. }
  unfold layout. rewrite H1, H2, H3, Hptr, length_app. cbn [length].
  split; [|split].
  - rewrite Nat.add_1_r. apply text_addr_S.
  - intros k inst' Hk. apply lookup_app_Some in Hk as [Hk | [Hge Hk]].
    + by apply Hpc.
    + apply list_lookup_singleton_Some in Hk as [Hk0 <-].
      rewrite Hi1, Hptr. do 2 f_equal. lia.
  - intros k inst' Hk Hlt. apply lookup_app_Some in Hk as [Hk | [Hge Hk]].
    + rewrite lookup_insert_ne; [by apply (Hsm k)|].
      rewrite (Hpc k inst' Hk). intros [= Heq].
      apply lookup_lt_Some in Hk.
      pose proof (text_addr_lt k _ Hk Hlt). lia.
    + apply list_lookup_singleton_Some in Hk as [Hk0 <-].
      rewrite Hi1, Hptr, Hi2. apply lookup_insert_eq.
Qed.

Lemma assemble_loop_layout (lines : list string) :
  ∀ (i : Z) (a : asm), layout a → ∃ a', assemble_loop i lines a = inr a' ∧ layout a'.
Proof.
  induction lines as [|raw rest IH]; intros i a Ha.
  - by exists a.
  - cbn [assemble_loop].
    destruct (assemble_line_layout i raw a Ha) as (a1 & -> & H1).
    cbn [mbind M_bind]. by apply IH.
Qed.

Lemma assemble_layout (sourceCode : string) (st0 : state) :
  ∃ a, layout a
       ∧ instructions (assemble sourceCode st0) = newInstructions a
       ∧ sourceMap (assemble sourceCode st0) = newSourceMap a.
Proof.
  destruct (assemble_loop_layout (split "010" sourceCode) 0 asm0 layout_asm0)
    as (a & Ha & Hl).
  exists a. unfold assemble. rewrite Ha. done.
Qed.

Lemma find_kth (l : list Inst.t) (k : nat) (inst : Inst.t) (f : Inst.t → bool) :
  l !! k = Some inst → f inst = true →
  (∀ j x, (j < k)%nat → l !! j = Some x → f x = false) →
  find f l = Some inst.
Proof.
  revert k. induction l as [|x l IH]; intros k Hk Hf Hbefore; [done|].
  destruct k as [|k].
  - injection Hk as ->. cbn [find]. by rewrite Hf.
  - cbn [find]. rewrite (Hbefore 0%nat x) by (done || lia).
    apply (IH k); [done | done |].
    intros j y Hj Hy. apply (Hbefore (S j) y); [lia | done].
Qed.

(** X15. Instruction addresses: in an assembled program the [k]-th
    instruction (counting from 0) is at [TEXT_START + 4k], the source map
    sends that address to the instruction's source line, and [step]
    fetches exactly that instruction when the PC holds that address. *)
Theorem fetch_kth (sourceCode : string) (st0 st : state) (k : nat) (inst : Inst.t) :
  instructions st = instructions (assemble sourceCode st0) →
  instructions st !! k = Some inst →
  TEXT_START + 4 * Z.of_nat k < 2 ^ 55 →
  Inst.pc inst = Fin (TEXT_START + 4 * Z.of_nat k)
  ∧ sourceMap (assemble sourceCode st0) !! Fin (TEXT_START + 4 * Z.of_nat k)
      = Some (Inst.sourceLine inst)
  ∧ (pc st = Num (Fin (TEXT_START + 4 * Z.of_nat k)) → fetch st = Some inst).
Proof.
  intros Hins Hk Hlt.
  destruct (assemble_layout sourceCode st0) as (a & (Hptr & Hpc & Hsm) & Hi & Hs).
  rewrite Hins, Hi in Hk.
  assert (Haddr : text_addr k = TEXT_START + 4 * Z.of_nat k) by (unfold text_addr; lia).
  assert (Hpck : Inst.pc inst = Fin (TEXT_START + 4 * Z.of_nat k)).
  { by rewrite (Hpc k inst Hk), Haddr. }
  split; [exact Hpck|]. split.
  - rewrite Hs, <- Hpck. by apply (Hsm k).
  - intros Hpcst. unfold fetch. rewrite Hins, Hi, Hpcst.
    apply (find_kth _ k); [exact Hk | |].
    + rewrite Hpck. cbn [strict_eq num_strict_eq]. apply Z.eqb_refl.
    + intros j x Hj Hx. rewrite (Hpc j x Hx). cbn [strict_eq num_strict_eq].
      apply Z.eqb_neq.
      assert (TEXT_START + 4 * Z.of_nat j < 2 ^ 55) by lia.
      pose proof (text_addr_lt j k Hj ltac:(done)). lia.
Qed.

Lemma fetch_kth_witness :
  let inst := Inst.mk 4194352 "beq" ["$t0"; "$zero"; "exit"] "beq $t0, $zero, exit" 33 in
  Inst.pc inst = Fin (TEXT_START + 4 * Z.of_nat 12)
  ∧ sourceMap (assemble DEFAULT_CODE initial) !! Fin (TEXT_START + 4 * Z.of_nat 12)
      = Some (Inst.sourceLine inst)
  ∧ (pc mounted = Num (Fin (TEXT_START + 4 * Z.of_nat 12)) → fetch mounted = Some inst).
Proof.
  intros inst.
  exact (fetch_kth DEFAULT_CODE initial mounted 12 inst
           ltac:(vm_compute; reflexivity) ltac:(vm_compute; reflexivity)
           ltac:(vm_compute; reflexivity)).
Defined.

(* ===================================================================== *)
(** * Halting *)
(* ===================================================================== *)

Lemma find_none {A} (f : A → bool) (l : list A) :
  (∀ x, x ∈ l → f x = false) → find f l = None.
Proof.
  induction l as [|x l IH]; intros H; [done|].
  cbn [find]. rewrite (H x) by left. apply IH. intros y Hy. apply H. by right.
Qed.

Lemma text_addr_pos (k : nat) : 0 < text_addr k.
Proof. unfold text_addr, TEXT_START. lia. Qed.

(** No instruction of an assembled program is at address 0. *)
Lemma fetch_at_zero (sourceCode : string) (st0 st : state) :
  instructions st = instructions (assemble sourceCode st0) →
  pc st = Num 0 → fetch st = None.
Proof.
  intros Hins Hpc.
  destruct (assemble_layout sourceCode st0) as (a & (_ & Hpca & _) & Hi & _).
  unfold fetch. rewrite Hins, Hi, Hpc. apply find_none.
  intros x Hx. apply list_elem_of_lookup in Hx as [k Hk].
  rewrite (Hpca k x Hk). cbn [strict_eq num_strict_eq]. apply Z.eqb_neq.
  pose proof (text_addr_pos k). lia.
Qed.

Lemma exit_step (st : state) (inst : Inst.t) :
  error st = None → fetch st = Some inst →
  mnemonic_of (Inst.op inst) = SYSCALL → regs st !!! ridx 2 = 10 →
  step st = commit st (mkLocals (Num 0) (regs st) (memory st) [] true).
Proof.
  intros Herr Hfetch Hm Hv0.
  rewrite (step_instruction st inst Herr Hfetch), Hm. unfold exec.
  by rewrite Hv0.
Qed.

(** X16. The exit service (code 10 in [$v0]) halts an assembled program
    for good: the step sets the PC to 0 and clears [isRunning] without
    touching registers, memory or output; no instruction is at address 0,
    so every later step leaves the whole state as it is. *)
Theorem exit_halts (sourceCode : string) (st0 st : state) (inst : Inst.t) (n : nat) :
  instructions st = instructions (assemble sourceCode st0) →
  error st = None →
  fetch st = Some inst →
  mnemonic_of (Inst.op inst) = SYSCALL →
  regs st !!! ridx 2 = 10 →
  pc (step st) = Num 0 ∧ isRunning (step st) = false
  ∧ error (step st) = None ∧ output (step st) = output st
  ∧ regs (step st) = regs st ∧ memory (step st) = memory st
  ∧ fetch (step st) = None
  ∧ steps n (step st) = step st.
Proof.
  intros Hins Herr Hfetch Hm Hv0.
  pose proof (exit_step st inst Herr Hfetch Hm Hv0) as Hs.
  assert (He : error (step st) = None) by (by rewrite Hs).
  assert (Hpc : pc (step st) = Num 0) by (by rewrite Hs).
  assert (Hrun : isRunning (step st) = false) by (by rewrite Hs).
  assert (Hout : output (step st) = output st) by (by rewrite Hs).
  assert (Hr : regs (step st) = regs st) by (by rewrite Hs).
  assert (Hmem : memory (step st) = memory st) by (by rewrite Hs).
  assert (Hf : fetch (step st) = None).
  { apply (fetch_at_zero sourceCode st0); [|exact Hpc].
    destruct (step_keeps_program st) as (-> & _). exact Hins. }
  repeat split; try done. by apply steps_halted.
Qed.

Lemma exit_halts_witness :
  let st := steps 144 mounted in
  pc (step st) = Num 0 ∧ isRunning (step st) = false
  ∧ error (step st) = None ∧ output (step st) = output st
  ∧ regs (step st) = regs st ∧ memory (step st) = memory st
  ∧ fetch (step st) = None
  ∧ steps 5 (step st) = step st.
Proof.
  intros st.
  exact (exit_halts DEFAULT_CODE initial st
           (Inst.mk 4194420 "syscall" [] "syscall" 67) 5
           ltac:(vm_compute; reflexivity) ltac:(vm_compute; reflexivity)
           ltac:(vm_compute; reflexivity) ltac:(vm_compute; reflexivity)
           ltac:(vm_compute; reflexivity)).
Defined.

(** X17. Running off the end is not a fault: when the PC holds the address
    just past the last instruction of an assembled program, no instruction
    is fetched, and every [step] only clears [isRunning]; registers,
    memory, PC, output stay as they are and [error] stays unset. *)
Theorem run_off_end (sourceCode : string) (st0 st : state) (n : nat) :
  instructions st = instructions (assemble sourceCode st0) →
  error st = None →
  pc st = Num (Fin (TEXT_START + 4 * Z.of_nat (length (instructions st)))) →
  TEXT_START + 4 * Z.of_nat (length (instructions st)) <= 2 ^ 55 →
  fetch st = None
  ∧ steps (S n) st = halt st
  ∧ error (steps (S n) st) = None.
Proof.
  intros Hins Herr Hpc Hlen.
  destruct (assemble_layout sourceCode st0) as (a & (_ & Hpca & _) & Hi & _).
  assert (Hf : fetch st = None).
  { unfold fetch. rewrite Hpc. apply find_none.
    intros x Hx. apply list_elem_of_lookup in Hx as [k Hk].
    pose proof (lookup_lt_Some _ _ _ Hk) as Hklt.
    rewrite Hins, Hi in Hk. rewrite (Hpca k x Hk).
    cbn [strict_eq num_strict_eq]. apply Z.eqb_neq. unfold text_addr. lia. }
  assert (Hs : steps (S n) st = halt st).
  { induction n as [|n IH]; [by apply step_no_instruction|].
    rewrite steps_S, IH. by rewrite step_no_instruction. }
  split; [exact Hf|]. split; [exact Hs|]. by rewrite Hs.
Qed.

Lemma run_off_end_witness :
  let st := steps 2 (assemble ("li $t0, 1" +:+ nl +:+ "li $t1, 2") initial) in
  fetch st = None ∧ steps 3 st = halt st ∧ error (steps 3 st) = None.
Proof.
  intros st.
  exact (run_off_end ("li $t0, 1" +:+ nl +:+ "li $t1, 2") initial st 2
           ltac:(vm_compute; reflexivity) ltac:(vm_compute; reflexivity)
           ltac:(vm_compute; reflexivity) ltac:(vm_compute; discriminate)).
Defined.

(* ===================================================================== *)
(** * Call and return *)
(* ===================================================================== *)

(** X18. Call and return: [jal] stores the address of the next
    instruction in [$ra] and jumps to the resolved target; a [jr $ra]
    executed there brings the PC back to the instruction after the
    [jal]. *)
Theorem jal_jr_returns (st : state) (i1 i2 : Inst.t) (p : Z) (target : num) :
  error st = None →
  fetch st = Some i1 → mnemonic_of (Inst.op i1) = JAL →
  Inst.pc i1 = Fin p → int32 (p + 4) →
  getImmOrLabel (labelMap st) (arg (Inst.args i1) 0) = inr target →
  fetch (step st) = Some i2 → mnemonic_of (Inst.op i2) = JR →
  parseReg (arg (Inst.args i2) 0) = PIdx (ridx 31) →
  pc (step st) = Num target
  ∧ regs (step st) !!! ridx 31 = p + 4
  ∧ (∀ j, j ≠ ridx 31 → regs (step st) !!! j = regs st !!! j)
  ∧ pc (step (step st)) = Num (Fin (p + 4))
  ∧ regs (step (step st)) = regs (step st)
  ∧ error (step (step st)) = None.
Proof.
  intros Herr Hf1 Hm1 Hp Hpr Ht Hf2 Hm2 Hra.
  pose proof (fetch_pc st i1 Hf1) as Hpc. rewrite Hp in Hpc.
  assert (Hs1 : step st =
    commit st (mkLocals (Num target) (vinsert (ridx 31) (p + 4) (regs st))
                 (memory st) [] false)).
  { rewrite (step_instruction st i1 Herr Hf1), Hm1. unfold exec.
    rewrite Ht, Hpc. cbn [mbind mret M_bind M_ret ToNumber].
    unfold int32 in Hpr. rewrite js_add_exact by lia.
    cbn [ToInt32]. by rewrite wrap32_id. }
  assert (Hr1 : regs (step st) = vinsert (ridx 31) (p + 4) (regs st))
    by (by rewrite Hs1).
  assert (He1 : error (step st) = None) by (by rewrite Hs1).
  assert (Hra1 : regs (step st) !!! ridx 31 = p + 4)
    by (rewrite Hr1; apply vlookup_insert).
  assert (Hs2 : step (step st) =
    commit (step st) (mkLocals (Num (Fin (p + 4))) (regs (step st))
                        (memory (step st)) [] false)).
  { rewrite (step_instruction (step st) i2 He1 Hf2), Hm2. unfold exec, operand.
    rewrite Hra. cbn [getRegVal mret M_ret].
    destruct (decide (ridx 31 = 0%fin)) as [Heq|_]; [discriminate Heq|].
    by rewrite Hra1. }
  split; [by rewrite Hs1|]. split; [exact Hra1|]. split; [|split; [|split]].
  - intros j Hj. rewrite Hr1. apply vlookup_insert_ne. congruence.
  - by rewrite Hs2.
  - by rewrite Hs2.
  - rewrite Hs2. exact He1.
Qed.

Lemma jal_jr_returns_witness :
  let st := assemble ("jal f" +:+ nl +:+ "syscall" +:+ nl +:+ "f: jr $ra") initial in
  pc (step st) = Num (Fin 4194312)
  ∧ regs (step st) !!! ridx 31 = 4194304 + 4
  ∧ pc (step (step st)) = Num (Fin (4194304 + 4)).
Proof.
  intros st.
  destruct (jal_jr_returns st (Inst.mk 4194304 "jal" ["f"] "jal f" 1)
              (Inst.mk 4194312 "jr" ["$ra"] "jr $ra" 3) 4194304 (Fin 4194312)
              ltac:(vm_compute; reflexivity) ltac:(vm_compute; reflexivity)
              ltac:(vm_compute; reflexivity) ltac:(vm_compute; reflexivity)
              ltac:(unfold int32; lia) ltac:(vm_compute; reflexivity)
              ltac:(vm_compute; reflexivity) ltac:(vm_compute; reflexivity)
              ltac:(vm_compute; reflexivity)) as (H1 & H2 & _ & H3 & _).
  split; [exact H1 | split; [exact H2 | exact H3]].
Defined.

(* ===================================================================== *)
(** * Strings in the data segment *)
(* ===================================================================== *)

Lemma code_range (c : ascii) : 0 <= code c < 256.
Proof.
  unfold code. pose proof (N_ascii_bounded c) as H. lia.
Qed.

Lemma print_string_loop_holds (m : memory_t) (str : string) :
  ∀ (P : Z) (fuel : nat) (acc : list Z),
  (String.length str < fuel)%nat →
  0 <= P → P + Z.of_nat (String.length str) < 2 ^ 53 →
  holds_string m P str →
  print_string_loop fuel m (Fin P) (getMemByte (Fin P) m) acc = acc ++ codes str.
Proof.
  induction str as [|c str IH]; intros P fuel acc Hfuel HP Hlen Hholds.
  - destruct fuel as [|fuel]; [cbn in Hfuel; lia|].
    cbn [holds_string] in Hholds. unfold getMemByte. rewrite Hholds.
    cbn [print_string_loop num_strict_eq]. change (0 =? 0) with true.
    cbv iota. by rewrite app_nil_r.
  - destruct fuel as [|fuel]; [cbn in Hfuel; lia|].
    cbn [holds_string] in Hholds. destruct Hholds as (Hc & Hnz & Hrest).
    cbn [String.length] in Hfuel, Hlen.
    unfold getMemByte. rewrite Hc. cbn [print_string_loop num_strict_eq].
    destruct (Z.eqb_spec (code c) 0) as [|_]; [contradiction|].
    rewrite js_add_exact by lia.
    fold (getMemByte (Fin (P + 1)) m).
    rewrite (IH (P + 1) fuel) by (done || lia).
    rewrite <- app_assoc. f_equal. cbn [ToUint16].
    pose proof (code_range c). rewrite Z.mod_small by lia. reflexivity.
Qed.

(** [write_chars] stores at [P] and above only, and returns the address
    after the last character. *)
Lemma write_chars_spec (str : string) :
  ∀ (seg : memory_t) (P : Z),
  0 <= P → P + Z.of_nat (String.length str) < 2 ^ 53 →
  ∃ seg', write_chars str seg (Fin P) = (seg', Fin (P + Z.of_nat (String.length str)))
    ∧ (∀ x : Z, x < P → seg' !! Fin x = seg !! Fin x)
    ∧ ((∀ c, In c (list_ascii_of_string str) → code c ≠ 0) →
         holds_string (<[Fin (P + Z.of_nat (String.length str)) := Fin 0]> seg') P str).
Proof.
  induction str as [|c str IH]; intros seg P HP Hlen.
  - exists seg. cbn [write_chars String.length Z.of_nat]. rewrite Z.add_0_r.
    split; [reflexivity|]. split; [done|].
    intros _. cbn [holds_string]. apply load_insert_eq.
  - cbn [String.length] in Hlen. cbn [write_chars].
    rewrite js_add_exact by lia.
    destruct (IH (<[Fin P := Fin (code c)]> seg) (P + 1)) as (seg' & Hw & Hframe & Hh);
      [lia | lia |].
    exists seg'. cbn [String.length].
    replace (P + Z.of_nat (S (String.length str)))
      with (P + 1 + Z.of_nat (String.length str)) by lia.
    split; [exact Hw|]. split.
    + intros x Hx. rewrite Hframe by lia. apply lookup_insert_ne. intros [=]. lia.
    + intros Hnz. cbn [holds_string]. split; [|split].
      * rewrite load_insert_ne by (intros [=]; lia). unfold load.
        rewrite Hframe by lia. rewrite lookup_insert_eq. cbn [truthy].
        destruct (Z.eqb_spec (code c) 0) as [H0|_]; [|reflexivity].
        exfalso. apply (Hnz c); [by left | exact H0].
      * apply Hnz. by left.
      * apply Hh. intros c' Hc'. apply Hnz. by right.
Qed.

(** X19. A string stored by [.asciiz] is printed back by the print_string
    service: for a [.asciiz] line whose string (the text between the first
    and the last double quote, escapes replaced) is shorter than 1000
    characters and contains no NUL, the data pointer advances by the
    length plus one, and scanning from the old data pointer yields exactly
    the characters of the string. *)
Theorem asciiz_print_string (line : string) (a : asm) (P : Z) :
  match_words line !! 0%nat = Some ".asciiz" →
  dataPtr a = Fin P → 0 <= P →
  P + Z.of_nat (String.length (string_literal line)) + 1 < 2 ^ 53 →
  (String.length (string_literal line) < 1000)%nat →
  (∀ c, In c (list_ascii_of_string (string_literal line)) → code c ≠ 0) →
  ∃ a', assemble_data line a = inr a'
    ∧ dataPtr a' = Fin (P + Z.of_nat (String.length (string_literal line)) + 1)
    ∧ print_string (newDataSegment a') (Fin P) = codes (string_literal line)
    ∧ (∀ x : Z, x < P → newDataSegment a' !! Fin x = newDataSegment a !! Fin x).
Proof.
  intros Hdir Hptr HP Hlen Hshort Hnz.
  destruct (write_chars_spec (string_literal line) (newDataSegment a) P)
    as (seg' & Hw & Hframe & Hh); [lia | lia |].
  unfold assemble_data. rewrite Hdir.
  rewrite (bool_decide_eq_true_2 (Some ".asciiz" = Some ".asciiz")) by done.
  cbn [orb]. fold (string_literal line). rewrite Hptr, Hw.
  rewrite js_add_exact by lia.
  eexists. split; [reflexivity|].
  cbn [dataPtr newDataSegment]. split; [reflexivity|]. split.
  - unfold print_string. rewrite <- (app_nil_l (codes _)).
    apply print_string_loop_holds; [lia | lia | lia |].
    by apply Hh.
  - intros x Hx. rewrite lookup_insert_ne by (intros [=]; lia). by apply Hframe.
Qed.

Lemma asciiz_print_string_witness :
  let line := ".asciiz " +:+ dq +:+ "Hi\n" +:+ dq in
  ∃ a', assemble_data line (with_section SecData asm0) = inr a'
    ∧ dataPtr a' = Fin (DATA_START + Z.of_nat (String.length (string_literal line)) + 1)
    ∧ print_string (newDataSegment a') (Fin DATA_START) = codes (string_literal line).
Proof.
  intros line.
  destruct (asciiz_print_string line (with_section SecData asm0) DATA_START
              ltac:(vm_compute; reflexivity) ltac:(vm_compute; reflexivity)
              ltac:(vm_compute; discriminate) ltac:(vm_compute; reflexivity)
              ltac:(vm_compute; lia))
    as (a' & H1 & H2 & H3 & _).
  { vm_compute. intros c [<-|[<-|[<-|[]]]]; discriminate. }
  exists a'. split; [exact H1 | split; [exact H2 | exact H3]].
Defined.

(* ===================================================================== *)
(** * Operand decoding *)
(* ===================================================================== *)

Lemma register_names_ok (i : fin 32) : register_name_ok i = true.
Proof.
  assert (H : forallb register_name_ok (enum (fin 32)) = true)
    by (vm_compute; reflexivity).
  rewrite forallb_forall in H. apply H, list_elem_of_In, elem_of_enum.
Qed.

Lemma REG_MAP_inv (s : string) (i : fin 32) :
  REG_MAP !! s = Some i → REGISTERS !! fin_to_nat i = Some s.
Proof.
  intros H. apply elem_of_map_to_list in H.
  assert (HF : bool_decide
                 (Forall (λ p : string * fin 32,
                            REGISTERS !! fin_to_nat p.2 = Some p.1)
                    (map_to_list REG_MAP)) = true)
    by (vm_compute; reflexivity).
  apply bool_decide_eq_true in HF.
  rewrite Forall_forall in HF. exact (HF (s, i) H).
Qed.

(** X20. [parseReg] recognises exactly the 32 register names, each at its
    own index: [REGISTERS[i]] decodes to [i], and a non-empty token decodes
    to index [i] only if it is [REGISTERS[i]].  A missing operand decodes
    to index 0. *)
Theorem parseReg_register_names (s : string) (i : fin 32) :
  s ≠ "" →
  (parseReg (Some s) = PIdx i ↔ REGISTERS !! fin_to_nat i = Some s)
  ∧ parseReg None = PIdx 0%fin.
Proof.
  intros Hs. split; [|reflexivity]. split.
  - destruct s as [|c s]; [done|]. unfold parseReg.
    assert (Hplain : REG_MAP_get (String c s) = PIdx i →
                     REGISTERS !! fin_to_nat i = Some (String c s)).
    { unfold REG_MAP_get. destruct (REG_MAP !! String c s) as [j|] eqn:Hj.
      - intros [= <-]. by apply REG_MAP_inv.
      - by destruct (bool_decide _). }
    cbv zeta. destruct (includes "(" (String c s)); [|exact Hplain].
    destruct (match_mem_operand (String c s)) as [[m1 m2]|]; [done | exact Hplain].
  - intros Hname. pose proof (register_names_ok i) as Hok.
    unfold register_name_ok in Hok. rewrite Hname in Hok.
    destruct s as [|c nm]; [done|].
    destruct (Ascii.eqb_spec c "$") as [->|Hc].
    + apply andb_prop in Hok as [_ Hok]. by apply bool_decide_eq_true in Hok.
    + exfalso. revert Hok Hc. clear.
      destruct c as [[] [] [] [] [] [] [] []]; try discriminate; congruence.
Qed.

Lemma parseReg_register_names_witness :
  (parseReg (Some "$sp") = PIdx (ridx 29) ↔ REGISTERS !! fin_to_nat (ridx 29) = Some "$sp")
  ∧ parseReg None = PIdx 0%fin.
Proof.
  apply (parseReg_register_names "$sp" (ridx 29)). discriminate.
Defined.

Lemma span_all_digits (ds rest : string) :
  all_digits ds = true →
  span is_digit (ds +:+ String "(" rest) = (ds, String "(" rest).
Proof.
  induction ds as [|d ds IH]; intros H; [reflexivity|].
  cbn [all_digits] in H. apply andb_prop in H as [Hd Hds].
  change (String d ds +:+ String "(" rest) with (String d (ds +:+ String "(" rest)).
  cbn [span]. rewrite Hd, (IH Hds). reflexivity.
Qed.

Lemma includes_app (c : ascii) (x y : string) :
  includes c (x +:+ String c y) = true.
Proof.
  unfold includes. apply Z.leb_le.
  induction x as [|d x IH].
  - change ("" +:+ String c y) with (String c y). cbn [indexOf].
    by rewrite Ascii.eqb_refl.
  - change (String d x +:+ String c y) with (String d (x +:+ String c y)).
    cbn [indexOf]. destruct (Ascii.eqb c d); [lia|].
    destruct (Z.ltb_spec (indexOf c (x +:+ String c y)) 0); lia.
Qed.

(** The attempt of the pattern at the start of [digits(rest]. *)
Lemma mem_operand_at_digits (d : ascii) (ds rest : string) :
  all_digits (String d ds) = true →
  mem_operand_at (String d ds +:+ String "(" rest) =
  match rest with
  | String "$" s3 =>
      let '(nm, s4) := span is_lower_alnum s3 in
      if String.eqb nm "" then None
      else match s4 with
           | String ")" _ => Some (String d ds, String "$" nm)
           | _ => None
           end
  | _ => None
  end.
Proof.
  intros H. pose proof (span_all_digits (String d ds) rest H) as Hspan.
  cbn [all_digits] in H. apply andb_prop in H as [Hd _].
  unfold mem_operand_at.
  assert (Hsign :
    match String d ds +:+ String "(" rest with
    | String "-" s' => ("-", s')
    | _ => ("", String d ds +:+ String "(" rest)
    end = ("", String d ds +:+ String "(" rest)).
  { change (String d ds +:+ String "(" rest)
      with (String d (ds +:+ String "(" rest)). revert Hd. clear.
    destruct d as [[] [] [] [] [] [] [] []]; intros Hd;
      try discriminate Hd; reflexivity. }
  rewrite Hsign, Hspan. cbn [String.eqb]. reflexivity.
Qed.

Lemma mem_operand_at_negative (d : ascii) (ds rest : string) :
  all_digits (String d ds) = true →
  mem_operand_at (String "-" (String d ds +:+ String "(" rest)) =
  match rest with
  | String "$" s3 =>
      let '(nm, s4) := span is_lower_alnum s3 in
      if String.eqb nm "" then None
      else match s4 with
           | String ")" _ => Some (String "-" (String d ds), String "$" nm)
           | _ => None
           end
  | _ => None
  end.
Proof.
  intros H. pose proof (span_all_digits (String d ds) rest H) as Hspan.
  unfold mem_operand_at. rewrite Hspan. cbn [String.eqb].
  destruct rest as [|c rest]; [reflexivity|].
  destruct (span is_lower_alnum rest) as [nm s4] eqn:Hsp.
  destruct c as [[] [] [] [] [] [] [] []]; reflexivity.
Qed.

(** X21. A memory operand [offset(register)] decodes to its offset and its
    register index: for a non-empty string of decimal digits, optionally
    preceded by a minus sign, followed by a register name in parentheses,
    [parseReg] yields [{ offset: parseInt(offset), reg: index }]. *)
Theorem parseReg_memory_operand (negative : bool) (ds : string) (i : fin 32)
    (name : string) :
  ds ≠ "" → all_digits ds = true →
  REGISTERS !! fin_to_nat i = Some name →
  let offset := (if negative then "-" else "") +:+ ds in
  parseReg (Some (offset +:+ "(" +:+ name +:+ ")"))
  = PMem (parseInt offset) (PIdx i).
Proof.
  intros Hne Hds Hname offset.
  pose proof (register_names_ok i) as Hok.
  unfold register_name_ok in Hok. rewrite Hname in Hok.
  destruct name as [|c nm]; [done|].
  destruct (Ascii.eqb_spec c "$") as [->|Hc].
  2:{ exfalso. revert Hok Hc. clear.
      destruct c as [[] [] [] [] [] [] [] []]; try discriminate; congruence. }
  apply andb_prop in Hok as [Hok _]. apply andb_prop in Hok as [Hok Hmap].
  apply andb_prop in Hok as [Hnm Hspan].
  apply bool_decide_eq_true in Hmap. apply bool_decide_eq_true in Hspan.
  apply negb_true_iff in Hnm.
  destruct ds as [|d ds]; [done|].
  assert (Hmatch : mem_operand_at (offset +:+ "(" +:+ String "$" nm +:+ ")")
                   = Some (offset, String "$" nm)).
  { subst offset. destruct negative.
    - change (mem_operand_at
                (String "-" (String d ds +:+ String "(" (String "$" (nm +:+ ")"))))
              = Some (String "-" (String d ds), String "$" nm)).
      rewrite (mem_operand_at_negative d ds _ Hds). cbv zeta.
      rewrite Hspan, Hnm. reflexivity.
    - change (mem_operand_at
                (String d ds +:+ String "(" (String "$" (nm +:+ ")")))
              = Some (String d ds, String "$" nm)).
      rewrite (mem_operand_at_digits d ds _ Hds). cbv zeta.
      rewrite Hspan, Hnm. reflexivity. }
  assert (Hinc : includes "(" (offset +:+ "(" +:+ String "$" nm +:+ ")") = true).
  { change (offset +:+ "(" +:+ String "$" nm +:+ ")")
      with (offset +:+ String "(" (String "$" nm +:+ ")")).
    apply includes_app. }
  unfold parseReg.
  destruct (offset +:+ "(" +:+ String "$" nm +:+ ")") as [|c0 s0] eqn:Hs.
  { subst offset. destruct negative; discriminate Hs. }
  cbv zeta. rewrite Hinc. cbn [match_mem_operand]. rewrite Hmatch.
  by rewrite Hmap.
Qed.

Lemma parseReg_memory_operand_witness :
  parseReg (Some (("-" +:+ "12") +:+ "(" +:+ "$sp" +:+ ")"))
  = PMem (parseInt ("-" +:+ "12")) (PIdx (ridx 29)).
Proof.
  apply (parseReg_memory_operand true "12" (ridx 29) "$sp");
    [discriminate | reflexivity | reflexivity].
Defined.

(* ===================================================================== *)
(** * Data words, comments *)
(* ===================================================================== *)

(** X22. A [.word] directive stores its integer as four big-endian bytes
    at the data pointer, exactly as [setMemWord] would, and advances the
    pointer by 4; [getMemWord] (hence [lw]) reads the value back. *)
Theorem word_directive (line tok : string) (rest : list string) (a : asm) (P V : Z) :
  match_words line = ".word" :: tok :: rest →
  dataPtr a = Fin P → Z.abs P <= 2 ^ 53 - 4 →
  parseInt tok = Fin V → int32 V →
  ∃ a', assemble_data line a = inr a'
    ∧ dataPtr a' = Fin (P + 4)
    ∧ newDataSegment a' = setMemWord P V (newDataSegment a)
    ∧ getMemWord P (newDataSegment a') = Fin V
    ∧ textPtr a' = textPtr a ∧ newInstructions a' = newInstructions a.
Proof.
  intros Hw Hptr HP Htok HV.
  unfold assemble_data. rewrite Hw.
  cbn [lookup list_lookup ToString default from_option id].
  rewrite (bool_decide_eq_false_2 (Some ".word" = Some ".asciiz")) by discriminate.
  rewrite (bool_decide_eq_false_2 (Some ".word" = Some ".ascii")) by discriminate.
  rewrite (bool_decide_eq_true_2 (Some ".word" = Some ".word")) by reflexivity.
  cbn [orb]. rewrite Htok, Hptr. eexists. split; [reflexivity|].
  cbn [dataPtr newDataSegment textPtr newInstructions].
  split; [by rewrite js_add_exact by lia|]. split; [reflexivity|].
  split; [|done].
  fold (setMemWord P V (newDataSegment a)).
  apply word_read_back; [lia | exact HV].
Qed.

Lemma word_directive_witness :
  ∃ a', assemble_data ".word -2" (with_section SecData asm0) = inr a'
    ∧ dataPtr a' = Fin (DATA_START + 4)
    ∧ getMemWord DATA_START (newDataSegment a') = Fin (-2).
Proof.
  destruct (word_directive ".word -2" "-2" [] (with_section SecData asm0) DATA_START (-2)
              ltac:(vm_compute; reflexivity) ltac:(vm_compute; reflexivity)
              ltac:(vm_compute; discriminate) ltac:(vm_compute; reflexivity)
              ltac:(unfold int32; lia))
    as (a' & H1 & H2 & _ & H3 & _).
  exists a'. split; [exact H1 | split; [exact H2 | exact H3]].
Defined.

Lemma js_substring_0_0 (s : string) : js_substring 0 0 s = "".
Proof.
  unfold js_substring, strlen.
  replace (Z.min (Z.max 0 (Z.min 0 _)) (Z.max 0 (Z.min 0 _))) with 0 by lia.
  replace (Z.max (Z.max 0 (Z.min 0 (Z.of_nat (String.length s))))
             (Z.max 0 (Z.min 0 (Z.of_nat (String.length s)))) - 0) with 0 by lia.
  by destruct s.
Qed.

(** X23. Blank lines and comment lines assemble to nothing: a line that is
    empty once trimmed, or whose first non-blank character is [#], leaves
    every assembler variable as it is; it takes no address and binds no
    label. *)
Theorem comment_and_blank_lines (i : Z) (raw : string) (a : asm) :
  trim raw = "" ∨ indexOf "#" (trim raw) = 0 →
  assemble_line i raw a = inr a.
Proof.
  intros [H | H]; unfold assemble_line; cbv zeta; rewrite H.
  - reflexivity.
  - change (0 =? -1) with false. cbv iota. rewrite js_substring_0_0. reflexivity.
Qed.

Lemma comment_and_blank_lines_witness :
  assemble_line 0 "    # Initialize variables" asm0 = inr asm0.
Proof.
  apply (comment_and_blank_lines 0 "    # Initialize variables" asm0).
  right. vm_compute. reflexivity.
Defined.

(* ===================================================================== *)
(** * Multiplication, shifts and branches *)
(* ===================================================================== *)

Lemma wrap32_congr (a b : Z) : a mod 2 ^ 32 = b mod 2 ^ 32 → wrap32 a = wrap32 b.
Proof.
  intros H. unfold wrap32. f_equal.
  rewrite (Z.add_mod a), (Z.add_mod b), H by lia. reflexivity.
Qed.

Lemma wrap32_idem (a : Z) : wrap32 (wrap32 a) = wrap32 a.
Proof. apply wrap32_id, wrap32_range. Qed.

Lemma wrap32_mul (x y : Z) : wrap32 (wrap32 x * wrap32 y) = wrap32 (x * y).
Proof.
  apply wrap32_congr.
  rewrite (Z.mul_mod (wrap32 x)), (Z.mul_mod x), !wrap32_mod by lia. reflexivity.
Qed.

Lemma shift_count (k : Z) : (k mod 2 ^ 32) mod 32 = k mod 32.
Proof. Z.div_mod_to_equations. lia. Qed.

(** X24. [mul] stores the low 32 bits of the product; [sll] and [srl] use
    the shift count modulo 32 (a count of 32 shifts by 0, a count of -1 by
    31): [sll] stores [x * 2^(k mod 32)] wrapped to 32 bits, [srl] the
    zero-filled shift of the unsigned 32-bit pattern of [x].  None of the
    three faults. *)
Theorem mul_shift_semantics (st : state) (inst : Inst.t) (d : fin 32) (x : Z) :
  error st = None →
  fetch st = Some inst →
  parseReg (arg (Inst.args inst) 0) = PIdx d →
  operand (regs st) (Inst.args inst) 1 = Num (Fin x) →
  let m := mnemonic_of (Inst.op inst) in
  (m = MUL → ∀ y, operand (regs st) (Inst.args inst) 2 = Num (Fin y) →
     regs (step st) !!! d = wrap32 (x * y) ∧ error (step st) = None)
  ∧ (m = SLL → ∀ k, imm (Inst.args inst) 2 = Fin k →
     regs (step st) !!! d = wrap32 (x * 2 ^ (k mod 32)) ∧ error (step st) = None)
  ∧ (m = SRL → ∀ k, imm (Inst.args inst) 2 = Fin k →
     regs (step st) !!! d = wrap32 ((x mod 2 ^ 32) / 2 ^ (k mod 32))
     ∧ error (step st) = None).
Proof.
  intros Herr Hfetch Hd Hx m.
  rewrite (step_instruction st inst Herr Hfetch). fold m.
  assert (Hpow : ∀ k, 0 <= k mod 32) by (intros k; apply Z.mod_pos_bound; lia).
  split; [|split]; intros -> y Hy; unfold exec; rewrite assign_eq, Hd, Hx, ?Hy;
    cbn [commit regs error nextRegs ToNumber]; rewrite setReg_lookup;
    (split; [|exact Herr]).
  - unfold js_imul. cbn [ToInt32]. by rewrite wrap32_idem, wrap32_mul.
  - unfold js_shl. cbn [ToInt32 ToUint32].
    rewrite shift_count, wrap32_idem, Z.shiftl_mul_pow2 by apply Hpow.
    apply wrap32_congr.
    rewrite (Z.mul_mod (wrap32 x)), (Z.mul_mod x), wrap32_mod by lia. reflexivity.
  - unfold js_shr. cbn [ToInt32 ToUint32].
    rewrite shift_count, Z.shiftr_div_pow2 by apply Hpow. reflexivity.
Qed.

Lemma mul_shift_semantics_witness :
  let st := steps 1 (assemble ("li $t0, -8" +:+ nl +:+ "srl $t1, $t0, 33") initial) in
  regs (step st) !!! ridx 9 = wrap32 ((-8 mod 2 ^ 32) / 2 ^ (33 mod 32))
  ∧ wrap32 ((-8 mod 2 ^ 32) / 2 ^ (33 mod 32)) = 0x7FFFFFFC.
Proof.
  intros st.
  destruct (mul_shift_semantics st
              (Inst.mk 4194308 "srl" ["$t1"; "$t0"; "33"] "srl $t1, $t0, 33" 2)
              (ridx 9) (-8)
              ltac:(vm_compute; reflexivity) ltac:(vm_compute; reflexivity)
              ltac:(vm_compute; reflexivity) ltac:(vm_compute; reflexivity))
    as (_ & _ & Hsrl).
  destruct (Hsrl ltac:(vm_compute; reflexivity) 33 ltac:(vm_compute; reflexivity))
    as [H _].
  split; [exact H | vm_compute; reflexivity].
Defined.

(** X25. Branches: with two register operands holding [x] and [y] and a
    target operand that names a label, [beq] sets the PC to the label's
    address when [x = y] and to the next instruction otherwise; [bne] does
    the opposite.  Neither changes a register, memory or output, and
    neither faults (no label being named [hasOwnProperty]). *)
Theorem branch_semantics (st : state) (inst : Inst.t) (x y : Z) (t : num) :
  error st = None →
  fetch st = Some inst →
  labelMap st !! "hasOwnProperty" = None →
  operand (regs st) (Inst.args inst) 0 = Num (Fin x) →
  operand (regs st) (Inst.args inst) 1 = Num (Fin y) →
  labelMap st !! ToString (arg (Inst.args inst) 2) = Some t →
  let m := mnemonic_of (Inst.op inst) in
  let next := Num (js_add (Inst.pc inst) 4) in
  (m = BEQ → pc (step st) = if decide (x = y) then Num t else next)
  ∧ (m = BNE → pc (step st) = if decide (x = y) then next else Num t)
  ∧ (m = BEQ ∨ m = BNE →
     regs (step st) = regs st ∧ memory (step st) = memory st
     ∧ output (step st) = output st ∧ error (step st) = None).
Proof.
  intros Herr Hfetch Hown H0 H1 Hl m next.
  rewrite (step_instruction st inst Herr Hfetch). fold m.
  assert (Hres : getImmOrLabel (labelMap st) (arg (Inst.args inst) 2) = inr t).
  { unfold getImmOrLabel. by rewrite Hown, Hl. }
  assert (Heq : strict_eq (Num (Fin x)) (Num (Fin y)) = bool_decide (x = y)).
  { cbn [strict_eq num_strict_eq]. destruct (Z.eqb_spec x y).
    - by rewrite bool_decide_eq_true_2.
    - by rewrite bool_decide_eq_false_2. }
  subst next. pose proof (fetch_pc st inst Hfetch) as Hpc.
  split; [|split].
  - intros ->. unfold exec. rewrite H0, H1, Heq, Hres, Hpc.
    destruct (decide (x = y)) as [E|E].
    + by rewrite (bool_decide_eq_true_2 _ E).
    + by rewrite (bool_decide_eq_false_2 _ E).
  - intros ->. unfold exec. rewrite H0, H1, Heq, Hres, Hpc.
    destruct (decide (x = y)) as [E|E].
    + by rewrite (bool_decide_eq_true_2 _ E).
    + by rewrite (bool_decide_eq_false_2 _ E).
  - intros [-> | ->]; unfold exec; rewrite H0, H1, Heq, Hres;
      destruct (bool_decide (x = y)); done.
Qed.

Lemma branch_semantics_witness :
  let st := steps 12 mounted in
  pc (step st) = if decide (10 = 0) then Num (Fin 4194404) else Num (js_add (Fin 4194352) 4).
Proof.
  intros st.
  destruct (branch_semantics st
              (Inst.mk 4194352 "beq" ["$t0"; "$zero"; "exit"] "beq $t0, $zero, exit" 33)
              10 0 (Fin 4194404)
              ltac:(vm_compute; reflexivity) ltac:(vm_compute; reflexivity)
              ltac:(vm_compute; reflexivity) ltac:(vm_compute; reflexivity)
              ltac:(vm_compute; reflexivity) ltac:(vm_compute; reflexivity))
    as (Hbeq & _).
  exact (Hbeq ltac:(vm_compute; reflexivity)).
Defined.

(* ===================================================================== *)
(** * Labels *)
(* ===================================================================== *)

Lemma includes_false_literal (line lit : string) :
  includes ":" line = true → includes ":" lit = false → String.eqb line lit = false.
Proof.
  intros H1 H2. destruct (String.eqb_spec line lit) as [->|]; [congruence | done].
Qed.

Lemma assemble_data_labels (line : string) (a : asm) :
  ∃ a', assemble_data line a = inr a' ∧ newLabelMap a' = newLabelMap a.
Proof.
  unfold assemble_data.
  repeat case_match; simplify_eq; eexists; (split; [reflexivity|]); done.
Qed.

Lemma assemble_text_labels (i : Z) (line : string) (a : asm) :
  ∃ a', assemble_text i line a = inr a' ∧ newLabelMap a' = newLabelMap a.
Proof.
  unfold assemble_text. destruct (match_words _); eexists; (split; [reflexivity|]); done.
Qed.

(** X26. A label is bound to the pointer of the current section at the
    moment its line is read: in the text section, the address the next
    instruction will get (the one on the same line, if any); in the data
    section, the address of the next datum.  Whatever follows the colon on
    the line does not rebind it, and [getImmOrLabel] resolves the name to
    that address.  A label spelled [__proto__] is not bound at all. *)
Theorem label_binding (i : Z) (raw : string) (a : asm) :
  includes ":" (stripped raw) = true →
  let label := label_of (stripped raw) in
  ∃ a', assemble_line i raw a = inr a'
    ∧ (label ≠ "__proto__" →
         newLabelMap a' = <[label := section_ptr a]> (newLabelMap a)
         ∧ newLabelMap a' !! label = Some (section_ptr a)
         ∧ (newLabelMap a' !! "hasOwnProperty" = None →
              getImmOrLabel (newLabelMap a') (Some label) = inr (section_ptr a)))
    ∧ (label = "__proto__" → newLabelMap a' = newLabelMap a).
Proof.
  intros Hinc label.
  assert (Hlab : newLabelMap (with_label label a)
                 = set_prop label (section_ptr a) (newLabelMap a)).
  { unfold with_label, section_ptr. cbn [newLabelMap]. by destruct (currentSection a). }
  assert (Hend : ∀ a', newLabelMap a' = newLabelMap (with_label label a) →
    (label ≠ "__proto__" →
       newLabelMap a' = <[label := section_ptr a]> (newLabelMap a)
       ∧ newLabelMap a' !! label = Some (section_ptr a)
       ∧ (newLabelMap a' !! "hasOwnProperty" = None →
            getImmOrLabel (newLabelMap a') (Some label) = inr (section_ptr a)))
    ∧ (label = "__proto__" → newLabelMap a' = newLabelMap a)).
  { intros a' Ha'. rewrite Ha', Hlab. unfold set_prop. split.
    - intros Hne. rewrite (proj2 (String.eqb_neq _ _) Hne).
      split; [reflexivity|]. split; [apply lookup_insert_eq|].
      intros Hown. unfold getImmOrLabel. rewrite Hown. cbn [ToString default from_option id].
      by rewrite lookup_insert_eq.
    - intros ->. reflexivity. }
  unfold assemble_line. cbv zeta. fold (stripped raw).
  rewrite (includes_false_literal (stripped raw) "" Hinc) by reflexivity.
  rewrite (includes_false_literal (stripped raw) ".data" Hinc) by reflexivity.
  rewrite (includes_false_literal (stripped raw) ".text" Hinc) by reflexivity.
  rewrite Hinc. fold (label_of (stripped raw)). fold label.
  destruct (String.eqb _ ""); [exists (with_label label a); split; [done | by apply Hend]|].
  destruct (currentSection (with_label label a)).
  - destruct (assemble_data_labels
                (trim (join ":" (tail (split ":" (stripped raw))))) (with_label label a))
      as (a' & -> & Hl).
    exists a'. split; [reflexivity | by apply Hend].
  - destruct (assemble_text_labels i
                (trim (join ":" (tail (split ":" (stripped raw))))) (with_label label a))
      as (a' & -> & Hl).
    exists a'. split; [reflexivity | by apply Hend].
Qed.

Lemma label_binding_witness :
  ∃ a', assemble_line 9 "loop: beq $t0, $zero, exit  # check" asm0 = inr a'
    ∧ newLabelMap a' !! "loop" = Some (Fin TEXT_START).
Proof.
  destruct (label_binding 9 "loop: beq $t0, $zero, exit  # check" asm0
              ltac:(vm_compute; reflexivity)) as (a' & H1 & H2 & _).
  exists a'. split; [exact H1|].
  destruct (H2 ltac:(vm_compute; discriminate)) as (_ & H3 & _). exact H3.
Defined.

(* ===================================================================== *)
(** * Reset and re-assembly *)
(* ===================================================================== *)

Lemma assemble_loop_total (sourceCode : string) :
  ∃ a, assemble_loop 0 (split "010" sourceCode) asm0 = inr a.
Proof.
  destruct (assemble_loop_spec (split "010" sourceCode) 0 asm0) as (a & Ha & _).
  by exists a.
Qed.

(** X27. Re-assembling the same source after any run gives back the
    freshly assembled state, whatever was executed in between.  [reset]
    gives that state too, except for memory: it empties memory instead of
    reloading the data segment, so the strings and words of [.data] are
    gone until the next [assemble]. *)
Theorem reset_is_assemble_without_data (sourceCode : string) (st : state) (n : nat) :
  let fresh := assemble sourceCode st in
  let ran := steps n fresh in
  assemble sourceCode ran = fresh
  ∧ regs (reset ran) = regs fresh ∧ pc (reset ran) = pc fresh
  ∧ output (reset ran) = output fresh ∧ error (reset ran) = error fresh
  ∧ isRunning (reset ran) = isRunning fresh
  ∧ instructions (reset ran) = instructions fresh
  ∧ labelMap (reset ran) = labelMap fresh
  ∧ sourceMap (reset ran) = sourceMap fresh
  ∧ memory (reset ran) = ∅
  ∧ (∀ a, getMemByte a (memory (reset ran)) = Fin 0).
Proof.
  intros fresh ran.
  destruct (assemble_loop_total sourceCode) as (a & Ha).
  assert (Hfresh : ∀ s, assemble sourceCode s =
     {| regs := newRegs; pc := Num TEXT_START;
        memory := newDataSegment a; output := []; isRunning := false;
        error := None; instructions := newInstructions a;
        labelMap := newLabelMap a; sourceMap := newSourceMap a |}).
  { intros s. unfold assemble. by rewrite Ha. }
  destruct (steps_program fresh n) as (Hi & Hl & Hs).
  fold ran in Hi, Hl, Hs.
  split; [subst fresh; by rewrite !Hfresh|].
  cbn [reset regs pc output error isRunning instructions labelMap sourceMap memory].
  rewrite Hi, Hl, Hs. subst fresh. rewrite (Hfresh st).
  repeat split; reflexivity.
Qed.

(* ===================================================================== *)
(** * Tokens of an instruction *)
(* ===================================================================== *)

Lemma rev_app_chars (s1 s2 : string) (c : ascii) :
  In c (chars (String.rev_app s1 s2)) ↔ In c (chars s1) ∨ In c (chars s2).
Proof.
  revert s2. induction s1 as [|a s1 IH]; intros s2; cbn [String.rev_app chars
    list_ascii_of_string In].
  - tauto.
  - rewrite IH. cbn [chars list_ascii_of_string In]. tauto.
Qed.

Lemma rev_app_nonempty (s1 s2 : string) : s2 ≠ "" → String.rev_app s1 s2 ≠ "".
Proof.
  revert s2. induction s1 as [|a s1 IH]; intros s2 H; cbn [String.rev_app];
    [done | by apply IH].
Qed.

Lemma rev_nonempty (s : string) : s ≠ "" → String.rev s ≠ "".
Proof.
  destruct s as [|a s]; [done|]. intros _. unfold String.rev.
  cbn [String.rev_app]. by apply rev_app_nonempty.
Qed.

Lemma rev_chars (s : string) (c : ascii) : In c (chars (String.rev s)) ↔ In c (chars s).
Proof. unfold String.rev. rewrite rev_app_chars. cbn [chars list_ascii_of_string In]. tauto. Qed.

Lemma replace_char_chars (s : string) (c : ascii) :
  In c (chars (replace_char "," " " s)) → c ≠ ","%char.
Proof.
  induction s as [|x s IH]; cbn [replace_char chars list_ascii_of_string In]; [done|].
  intros [<- | H]; [|by apply IH].
  destruct (Ascii.eqb_spec x ","); [discriminate | done].
Qed.

(** The tokens of [match(/\S+/g)]: non-empty, made of non-blank characters
    of the line. *)
Lemma words_acc_tokens (s : string) :
  ∀ (cur w : string),
  (∀ c, In c (chars cur) → is_ws c = false) →
  In w (words_acc cur s) →
  w ≠ "" ∧ ∀ c, In c (chars w) →
             is_ws c = false ∧ (In c (chars cur) ∨ In c (chars s)).
Proof.
  assert (Hflush : ∀ cur w : string,
    (∀ c, In c (chars cur) → is_ws c = false) →
    In w (if String.eqb cur "" then [] else [String.rev cur]) →
    w ≠ "" ∧ ∀ c, In c (chars w) → is_ws c = false ∧ In c (chars cur)).
  { intros cur w Hcur Hw. destruct (String.eqb_spec cur "") as [|Hne]; [done|].
    destruct Hw as [<- | []]. split; [by apply rev_nonempty|].
    intros c Hc. apply (proj1 (rev_chars _ _)) in Hc. split; auto. }
  induction s as [|x s IH]; intros cur w Hcur Hw; cbn [words_acc] in Hw.
  - destruct (Hflush cur w Hcur Hw) as [H1 H2]. split; [done|].
    intros c Hc. destruct (H2 c Hc). split; auto.
  - destruct (is_ws x) eqn:Hx.
    + apply in_app_or in Hw as [Hw | Hw].
      * destruct (Hflush cur w Hcur Hw) as [H1 H2]. split; [done|].
        intros c Hc. destruct (H2 c Hc). split; auto.
      * destruct (IH "" w ltac:(by intros c []) Hw) as [H1 H2]. split; [done|].
        intros c Hc. destruct (H2 c Hc) as [H3 [[] | H4]].
        split; [done|]. right. cbn [chars list_ascii_of_string In]. by right.
    + assert (Hcur' : ∀ c, In c (chars (String x cur)) → is_ws c = false).
      { intros c [<- | Hc]; [done | by apply Hcur]. }
      destruct (IH (String x cur) w Hcur' Hw) as [H1 H2]. split; [done|].
      intros c Hc. destruct (H2 c Hc) as [H3 H4]. split; [done|].
      cbn [chars list_ascii_of_string In] in *. tauto.
Qed.

Lemma match_words_clean (line : string) (w : string) :
  In w (match_words (replace_char "," " " line)) → clean_token w.
Proof.
  intros Hw. destruct (words_acc_tokens _ "" w ltac:(by intros c []) Hw) as [H1 H2].
  split; [done|]. intros c Hc. destruct (H2 c Hc) as [H3 [[] | H4]].
  split; [done|]. by apply replace_char_chars in H4.
Qed.

Lemma assemble_line_tokens (i : Z) (raw : string) (a : asm) :
  Forall (λ inst, Forall clean_token (Inst.op inst :: Inst.args inst))
    (newInstructions a) →
  ∃ a', assemble_line i raw a = inr a'
    ∧ Forall (λ inst, Forall clean_token (Inst.op inst :: Inst.args inst))
        (newInstructions a').
Proof.
  intros Hall. unfold assemble_line. cbv zeta.
  set (line0 := if indexOf "#" (trim raw) =? -1 then _ else _). clearbody line0.
  destruct (String.eqb line0 ""); [by exists a|].
  destruct (String.eqb line0 ".data"); [eexists; split; [reflexivity | done]|].
  destruct (String.eqb line0 ".text"); [eexists; split; [reflexivity | done]|].
  set (p := if includes ":" line0 then _ else _).
  assert (Hp : newInstructions p.2 = newInstructions a)
    by (subst p; by destruct (includes _ _)).
  destruct p as [line2 a2]. cbn [snd] in Hp.
  destruct (String.eqb line2 ""); [exists a2; by rewrite Hp|].
  destruct (currentSection a2).
  - destruct (assemble_data_keeps line2 a2) as (a' & -> & _ & H2 & _).
    exists a'. split; [reflexivity|]. by rewrite H2, Hp.
  - unfold assemble_text.
    destruct (match_words (replace_char "," " " line2)) as [|op args] eqn:Hw.
    + exists a2. by rewrite Hp.
    + eexists. split; [reflexivity|]. cbn [newInstructions]. rewrite Hp.
      apply Forall_app. split; [done|]. constructor; [|constructor].
      cbn [Inst.op Inst.args]. rewrite <- Hw. apply Forall_forall.
      intros w Hin. apply list_elem_of_In in Hin. by apply match_words_clean in Hin.
Qed.

(** X28. Tokens of assembled instructions are clean: in every instruction
    of an assembled program, the mnemonic and each operand is a non-empty
    string without blanks and without commas (commas separate operands
    exactly like blanks do). *)
Theorem instruction_tokens_clean (sourceCode : string) (st : state) (inst : Inst.t) :
  inst ∈ instructions (assemble sourceCode st) →
  clean_token (Inst.op inst) ∧ Forall clean_token (Inst.args inst).
Proof.
  assert (Hloop : ∀ lines i a,
    Forall (λ inst, Forall clean_token (Inst.op inst :: Inst.args inst))
      (newInstructions a) →
    ∃ a', assemble_loop i lines a = inr a'
      ∧ Forall (λ inst, Forall clean_token (Inst.op inst :: Inst.args inst))
          (newInstructions a')).
  { induction lines as [|raw rest IH]; intros i a Ha; [by exists a|].
    cbn [assemble_loop]. destruct (assemble_line_tokens i raw a Ha) as (a1 & -> & H1).
    cbn [mbind M_bind]. by apply IH. }
  destruct (Hloop (split "010" sourceCode) 0 asm0 ltac:(constructor)) as (a & Ha & Hall).
  unfold assemble. rewrite Ha. cbn [instructions]. intros Hin.
  rewrite Forall_forall in Hall. specialize (Hall inst Hin).
  by apply Forall_cons in Hall.
Qed.

Lemma instruction_tokens_clean_witness :
  let inst := Inst.mk 4194304 "addi" ["$t0"; "$zero"; "10"] "addi $t0, $zero, 10" 12 in
  clean_token (Inst.op inst) ∧ Forall clean_token (Inst.args inst).
Proof.
  intros inst. apply (instruction_tokens_clean DEFAULT_CODE initial inst).
  apply list_elem_of_In. vm_compute. left. reflexivity.
Defined.
